(** * HTTP pipelining client: a shallow embedding of [http_pipelining.py]

    The module builds one packet holding several HTTP/1.1 requests, sends it
    over one (possibly TLS) socket, reads the concatenated responses and
    frames them back into one response per url; a second entry point retries
    failed attempts.

    Conventions of the embedding.
    - A Python [str] is represented by its UTF-8 encoding, so [str] and
      [bytes] are both [string] (a sequence of 8-bit characters), [encode()]
      is the identity and [decode()] is the identity on well-formed UTF-8 and
      raises otherwise.  [strip], [lower], [upper] and [int] act on the ASCII
      range, which is the range of the HTTP syntax handled here.
    - Python integers are [Z]; indices may be negative, as in the source.
    - Exceptions are values of [exn]; pure code returns an [outcome], code
      that touches the socket or the clock lives in the monad [M], which
      threads a [World] (scripted socket behaviour and a trace of effects).
    - [_debug] is the no-op lambda of the module and [warnings.warn] only
      prints: neither is part of the model. *)

From Stdlib Require Import ZArith List Ascii String Bool Lia.
Import ListNotations.

Open Scope list_scope.
Open Scope string_scope.
Open Scope Z_scope.

(** ** Python string and bytes primitives *)

Module Py.

Definition bytes := string.

Definition CR : ascii := "013"%char.
Definition LF : ascii := "010"%char.

Fixpoint take (n : nat) (s : string) : string :=
  match n, s with
  | S n', String c s' => String c (take n' s')
  | _, _ => ""
  end.

Fixpoint drop (n : nat) (s : string) : string :=
  match n, s with
  | S n', String _ s' => drop n' s'
  | _, _ => s
  end.

(** Index normalisation of a slice bound: a negative index counts from the
    end, and every index is clamped to [0, len]. *)
Definition clamp (len i : Z) : Z :=
  if i <? 0 then Z.max 0 (i + len) else Z.min i len.

(** [s[lo:hi]] *)
Definition slice (s : string) (lo hi : Z) : string :=
  let n := Z.of_nat (String.length s) in
  let a := clamp n lo in
  let b := clamp n hi in
  take (Z.to_nat (b - a)) (drop (Z.to_nat a) s).

(** [s[lo:]] *)
Definition slice_from (s : string) (lo : Z) : string :=
  drop (Z.to_nat (clamp (Z.of_nat (String.length s)) lo)) s.

Fixpoint find_nat (sub s : string) : option nat :=
  if prefix sub s then Some O
  else match s with
       | "" => None
       | String _ s' => option_map S (find_nat sub s')
       end.

(** [s.find(sub)]: the lowest index of [sub] in [s], or -1. *)
Definition find (sub s : string) : Z :=
  match find_nat sub s with
  | Some n => Z.of_nat n
  | None => -1
  end.

(** [s.count(sub)] for a non-empty [sub]: occurrences are counted from the
    left and do not overlap; [skip] is the number of characters of the
    last occurrence still to step over. *)
Fixpoint count_go (sub : string) (skip : nat) (s : string) : nat :=
  match s with
  | "" => O
  | String _ s' =>
      match skip with
      | S k => count_go sub k s'
      | O => if prefix sub s
             then S (count_go sub (Nat.pred (String.length sub)) s')
             else count_go sub O s'
      end
  end.

Definition count (sub s : string) : nat :=
  match sub with
  | "" => S (String.length s)
  | _ => count_go sub O s
  end.

(** [s.partition(sub)] without the middle component: the text before and
    after the first occurrence of [sub]. *)
Fixpoint partition (sub s : string) : option (string * string) :=
  if prefix sub s then Some ("", drop (String.length sub) s)
  else match s with
       | "" => None
       | String c s' =>
           match partition sub s' with
           | Some (l, r) => Some (String c l, r)
           | None => None
           end
       end.

(** [s.split(sub, maxsplit)] for a non-empty [sub]. *)
Fixpoint splitn (sub : string) (maxsplit : nat) (s : string) : list string :=
  match maxsplit with
  | O => [s]
  | S n =>
      match partition sub s with
      | None => [s]
      | Some (l, r) => l :: splitn sub n r
      end
  end.

(** [s.split(sub)]: there are at most [len(s)] occurrences to cut at. *)
Definition split (sub s : string) : list string :=
  splitn sub (String.length s) s.

Definition is_space (c : ascii) : bool :=
  let n := nat_of_ascii c in
  ((9 <=? n) && (n <=? 13) || (28 <=? n) && (n <=? 32))%nat.

Fixpoint lstrip (s : string) : string :=
  match s with
  | String c s' => if is_space c then lstrip s' else s
  | "" => ""
  end.

Fixpoint rstrip (s : string) : string :=
  match s with
  | "" => ""
  | String c s' =>
      let r := rstrip s' in
      if is_space c && (r =? "")%string then "" else String c r
  end.

Definition strip (s : string) : string := rstrip (lstrip s).

Definition lower_char (c : ascii) : ascii :=
  let n := nat_of_ascii c in
  if ((65 <=? n) && (n <=? 90))%nat then ascii_of_nat (n + 32) else c.

Definition upper_char (c : ascii) : ascii :=
  let n := nat_of_ascii c in
  if ((97 <=? n) && (n <=? 122))%nat then ascii_of_nat (n - 32) else c.

Fixpoint map_chars (f : ascii -> ascii) (s : string) : string :=
  match s with
  | "" => ""
  | String c s' => String (f c) (map_chars f s')
  end.

Definition lower : string -> string := map_chars lower_char.
Definition upper : string -> string := map_chars upper_char.

Definition is_digit (c : ascii) : bool :=
  let n := nat_of_ascii c in ((48 <=? n) && (n <=? 57))%nat.

Definition digit_val (c : ascii) : Z := Z.of_nat (nat_of_ascii c) - 48.

(** The digits of an integer literal: groups of digits separated by single
    underscores. *)
Fixpoint digits_go (acc : Z) (after_digit : bool) (s : string) : option Z :=
  match s with
  | "" => if after_digit then Some acc else None
  | String c s' =>
      if is_digit c then digits_go (10 * acc + digit_val c) true s'
      else if Ascii.eqb c "_" && after_digit then digits_go acc false s'
      else None
  end.

(** [int(s)] in base 10; [None] stands for ValueError. *)
Definition int (s : string) : option Z :=
  match strip s with
  | "" => None
  | String c d =>
      if Ascii.eqb c "-" then option_map Z.opp (digits_go 0 false d)
      else if Ascii.eqb c "+" then digits_go 0 false d
      else digits_go 0 false (String c d)
  end.

Definition in_range (lo hi : nat) (c : ascii) : bool :=
  let n := nat_of_ascii c in ((lo <=? n) && (n <=? hi))%nat.

Definition cont : ascii -> bool := in_range 128 191.

(** Well-formed UTF-8 (RFC 3629, table of section 4). *)
Fixpoint utf8_valid (s : string) : bool :=
  match s with
  | "" => true
  | String a s1 =>
      if in_range 0 127 a then utf8_valid s1
      else
        match s1 with
        | "" => false
        | String b s2 =>
            if in_range 194 223 a then cont b && utf8_valid s2
            else
              match s2 with
              | "" => false
              | String c s3 =>
                  if in_range 224 239 a then
                    (if in_range 224 224 a then in_range 160 191 b
                     else if in_range 237 237 a then in_range 128 159 b
                     else cont b)
                    && cont c && utf8_valid s3
                  else
                    match s3 with
                    | "" => false
                    | String d s4 =>
                        in_range 240 244 a
                        && (if in_range 240 240 a then in_range 144 191 b
                            else if in_range 244 244 a then in_range 128 143 b
                            else cont b)
                        && cont c && cont d && utf8_valid s4
                    end
              end
        end
  end.

End Py.

Import Py.

(** ** Data model *)

(** [CaseInsensitiveDict]: a [dict] whose [__setitem__] and [__getitem__]
    lower-case the key.  A dict keeps its keys in the order of their first
    insertion, and an assignment to a key already present replaces the value
    in place. *)
Definition CaseInsensitiveDict := list (string * string).

Fixpoint dict_setitem (k v : string) (d : list (string * string))
  : list (string * string) :=
  match d with
  | [] => [(k, v)]
  | (k', v') :: d' =>
      if (k' =? k)%string then (k, v) :: d' else (k', v') :: dict_setitem k v d'
  end.

(** [dict.get(k)]: inherited from [dict], so the key is looked up as given. *)
Fixpoint dict_get (k : string) (d : list (string * string)) : option string :=
  match d with
  | [] => None
  | (k', v) :: d' => if (k' =? k)%string then Some v else dict_get k d'
  end.

Definition cid_setitem (k v : string) (d : CaseInsensitiveDict)
  : CaseInsensitiveDict :=
  dict_setitem (lower k) v d.

(** The fields of [requests.Response] that [get_response] assigns. *)
Record Response := mkResponse {
  status_code : Z;
  reason : string;
  headers : CaseInsensitiveDict;
  _content : option bytes;
  url : string
}.

(** The exceptions the module can raise.  [RuntimeError] is the only one that
    receives extra attributes: [ready_responses] always, and
    [forcelist_responses] when raised by the retry loop. *)
Inductive exn :=
| ValueError (msg : string)
| UnicodeDecodeError
| IndexError
| NameError (name : string)
| OSError (msg : string)
| RuntimeError (msg : string) (ready_responses : list Response)
               (forcelist_responses : option (list Response)).

(** [getattr(ex, 'ready_responses', None)] *)
Definition getattr_ready_responses (ex : exn) : option (list Response) :=
  match ex with
  | RuntimeError _ ready _ => Some ready
  | _ => None
  end.

Inductive outcome (A : Type) :=
| Ok (a : A)
| Raise (e : exn).
Arguments Ok {A} a.
Arguments Raise {A} e.

Definition obind {A B} (o : outcome A) (f : A -> outcome B) : outcome B :=
  match o with
  | Ok a => f a
  | Raise e => Raise e
  end.

Notation "x <-- c ;; k" := (obind c (fun x => k))
  (at level 61, c at next level, right associativity).

Definition int_or_raise (s : string) : outcome Z :=
  match int s with
  | Some n => Ok n
  | None => Raise (ValueError "invalid literal for int() with base 10")
  end.

Definition decode (b : bytes) : outcome string :=
  if utf8_valid b then Ok b else Raise UnicodeDecodeError.

(** ** Sockets, the clock and the monad of effects *)

(** What one [recv] call on a socket does: it returns bytes (none when the
    peer has closed) or raises, a timeout being one of the errors. *)
Inductive recv_result :=
| RecvBytes (packet : bytes)
| RecvRaise (msg : string).

(** The scripted behaviour of one socket: whether [connect], [sendall] and
    [shutdown] raise, and what the successive [recv] calls do.  When the
    script of [recv] is used up the peer has closed: [recv] returns no
    byte. *)
Record sock_script := mkScript {
  on_connect : option string;
  on_sendall : option string;
  on_recv : list recv_result;
  on_shutdown : option string
}.

Inductive event :=
| EvSocket
| EvTlsWrap (server_hostname : string)
| EvConnect (host : string) (port : Z)
| EvSendall (packet : bytes)
| EvRecv (buffer_size : Z)
| EvShutdown
| EvClose
| EvSleep (seconds : Z).

(** The world: the scripts of the sockets still to be created, the socket in
    use, and the effects performed so far, oldest first. *)
Record World := mkWorld {
  future : list sock_script;
  sock : sock_script;
  trace : list event
}.

Definition M (A : Type) : Type := World -> outcome A * World.

Definition ret {A} (a : A) : M A := fun w => (Ok a, w).
Definition raise {A} (e : exn) : M A := fun w => (Raise e, w).

Definition bind {A B} (m : M A) (f : A -> M B) : M B :=
  fun w =>
    match m w with
    | (Ok a, w') => f a w'
    | (Raise e, w') => (Raise e, w')
    end.

Notation "x <- c ;; k" := (bind c (fun x => k))
  (at level 61, c at next level, right associativity).
Notation "c ;;; k" := (bind c (fun _ => k))
  (at level 61, right associativity).

Definition lift {A} (o : outcome A) : M A := fun w => (o, w).

(** [try: body / finally: cleanup], which is what leaving a [with] block
    does. *)
Definition finally {A} (body : M A) (cleanup : M unit) : M A :=
  fun w =>
    match body w with
    | (r, w') =>
        match cleanup w' with
        | (Ok _, w'') => (r, w'')
        | (Raise e, w'') => (Raise e, w'')
        end
    end.

Definition emit (ev : event) : M unit :=
  fun w => (Ok tt, mkWorld (future w) (sock w) (trace w ++ [ev])%list).

Definition closed_script : sock_script := mkScript None None [] None.

(** [socket.socket(AF_INET, SOCK_STREAM)]: the next script becomes the
    socket in use. *)
Definition socket_socket : M unit :=
  fun w =>
    match future w with
    | [] => (Ok tt, mkWorld [] closed_script (trace w ++ [EvSocket])%list)
    | s :: rest => (Ok tt, mkWorld rest s (trace w ++ [EvSocket])%list)
    end.

Definition raise_if (o : option string) : M unit :=
  match o with
  | Some msg => raise (OSError msg)
  | None => ret tt
  end.

Definition sock_connect (host : string) (port : Z) : M unit :=
  emit (EvConnect host port) ;;; fun w => raise_if (on_connect (sock w)) w.

Definition sock_sendall (packet : bytes) : M unit :=
  emit (EvSendall packet) ;;; fun w => raise_if (on_sendall (sock w)) w.

Definition sock_shutdown : M unit :=
  emit EvShutdown ;;; fun w => raise_if (on_shutdown (sock w)) w.

Definition sock_close : M unit := emit EvClose.

Definition time_sleep (seconds : Z) : M unit := emit (EvSleep seconds).

(** ** [perform]: packet builder, framer and transport *)

Section Perform.

(** The parameters of [perform], shared by its nested functions. *)
Variable urls : list string.
Variable host : string.
Variable port : Z.
Variable method : string.
Variable buffer_size : Z.
Variable timeout : Z.
Variable use_ssl : bool.
Variable connection_keep_alive : bool.
Variable input_headers : list (string * string).

Definition sep : string := String CR (String LF "").
Definition data_sep : bytes := sep ++ sep.

Definition intput_headers_str : string :=
  String.concat ""
    (map (fun kv => fst kv ++ ": " ++ snd kv ++ sep) input_headers).

Definition request_message (u : string) : string :=
  upper method ++ " " ++ u ++ " HTTP/1.1" ++ sep
    ++ "Host: " ++ host ++ sep ++ intput_headers_str.

Definition prepare_packet : bytes :=
  let con_type :=
    if connection_keep_alive then "" else "Connection: close" ++ sep in
  let packet := String.concat sep (map request_message urls) in
  let packet := packet ++ con_type in
  let packet := packet ++ sep ++ sep in
  packet.

Fixpoint prepare_headers_from (raw_headers : list string)
         (hs : CaseInsensitiveDict) : outcome CaseInsensitiveDict :=
  match raw_headers with
  | [] => Ok hs
  | h :: rest =>
      match splitn ":" 1 h with
      | [left_; right_] =>
          prepare_headers_from rest
            (cid_setitem (strip left_) (strip right_) hs)
      | _ => Raise (ValueError "not enough values to unpack")
      end
  end.

Definition prepare_headers (raw_headers : list string)
  : outcome CaseInsensitiveDict :=
  prepare_headers_from raw_headers [].

Definition get_response (raw : bytes) (u : string)
  : outcome (Response * bytes) :=
  let headers_end := find data_sep raw in
  text <-- decode (slice raw 0 headers_end) ;;
  match split sep text with
  | [] => Raise (ValueError "not enough values to unpack")
  | top :: raw_headers =>
      match splitn " " 2 top with
      | [protocol; rcode; rmsg] =>
          code <-- int_or_raise rcode ;;
          hs <-- prepare_headers raw_headers ;;
          offset <--
            (if (method =? "HEAD")%string then Ok 0
             else match dict_get "content-length" hs with
                  | Some v => int_or_raise v
                  | None => Ok 0
                  end) ;;
          let start := headers_end + Z.of_nat (String.length data_sep) in
          let content :=
            if offset =? 0 then None else Some (slice raw start offset) in
          Ok (mkResponse code rmsg hs content u,
              slice_from raw (start + offset))
      | _ => Raise (ValueError "not enough values to unpack")
      end
  end.

(** The [for] loop of [parse_response]: [prepared] is [prepared_resps],
    [content] the bytes still to frame; the loop ends with the url list or
    at the [break] taken when no byte is left. *)
Fixpoint parse_loop (us : list string) (content : bytes)
         (prepared : list Response) : outcome (list Response) :=
  match us with
  | [] => Ok prepared
  | u :: rest =>
      rc <-- get_response content u ;;
      let prepared := (prepared ++ [fst rc])%list in
      if (snd rc =? "")%string then Ok prepared
      else parse_loop rest (snd rc) prepared
  end.

Definition parse_response (content : bytes) : outcome (list Response) :=
  prepared_resps <-- parse_loop urls content [] ;;
  if (List.length prepared_resps =? List.length urls)%nat
  then Ok prepared_resps
  else Raise (RuntimeError "data is not enough" prepared_resps None).


(** The [while] loop of [recvall] over the script of the socket: the
    result is the buffer, the part of the script left unread and the
    number of [recv] calls made.  An exception of [recv] is caught by the
    [except Exception] around the loop. *)
Fixpoint recvall_from (recvs : list recv_result) (resp_count : nat)
         (data : bytes) : bytes * list recv_result * nat :=
  if (count data_sep data =? resp_count)%nat then (data, recvs, O)
  else
    match recvs with
    | [] => (data, [], 1%nat)
    | RecvRaise _ :: rest => (data, rest, 1%nat)
    | RecvBytes packet :: rest =>
        if (packet =? "")%string then (data, rest, 1%nat)
        else
          match recvall_from rest resp_count (data ++ packet) with
          | (d, r, k) => (d, r, S k)
          end
    end.

Definition recvall (resp_count : nat) : M bytes :=
  fun w =>
    match recvall_from (on_recv (sock w)) resp_count "" with
    | (data, rest, calls) =>
        let s := sock w in
        (Ok data,
         mkWorld (future w)
                 (mkScript (on_connect s) (on_sendall s) rest (on_shutdown s))
                 (trace w ++ repeat (EvRecv buffer_size) calls)%list)
    end.

Definition read_response_sock : M bytes :=
  sock_connect host port ;;;
  sock_sendall prepare_packet ;;;
  raw_responses <- recvall (List.length urls) ;;
  sock_shutdown ;;;
  ret raw_responses.

Definition read_response_ssl : M (list Response) :=
  socket_socket ;;;
  emit (EvTlsWrap host) ;;;
  finally (raw <- read_response_sock ;; lift (parse_response raw))
          sock_close.

Definition read_response : M (list Response) :=
  socket_socket ;;;
  finally (raw <- read_response_sock ;; lift (parse_response raw))
          sock_close.

Definition perform : M (list Response) :=
  if use_ssl || (port =? 443) then read_response_ssl else read_response.

End Perform.

(** ** [http_pipelining]: target extraction and the single-shot entry point *)

(** The pattern [(https?):\/\/(.*?)(:\d+)?\/] as [re.findall] runs it: the
    leftmost start position with a match, and at that position the shortest
    host (the group [.*?] is lazy and does not cross a newline) after which
    an optional port and a slash follow. *)
Module Re.

Fixpoint span_digits (s : string) : string * string :=
  match s with
  | String c s' =>
      if is_digit c
      then (String c (fst (span_digits s')), snd (span_digits s'))
      else ("", s)
  | "" => ("", "")
  end.

(** [(:\d+)?\/] at the head of [s]: the text of the port group. *)
Definition port_slash (s : string) : option string :=
  match s with
  | "" => None
  | String c s' =>
      if Ascii.eqb c ":" then
        match span_digits s' with
        | (String d ds, String c' _) =>
            if Ascii.eqb c' "/" then Some (String ":" (String d ds))
            else None
        | _ => None
        end
      else if Ascii.eqb c "/" then Some ""
      else None
  end.

(** [(.*?)(:\d+)?\/] at the head of [s]: host and port groups. *)
Fixpoint host_port (s : string) : option (string * string) :=
  match port_slash s with
  | Some p => Some ("", p)
  | None =>
      match s with
      | "" => None
      | String c s' =>
          if Ascii.eqb c LF then None
          else match host_port s' with
               | Some (h, p) => Some (String c h, p)
               | None => None
               end
      end
  end.

Definition match_at (s : string) : option (string * string * string) :=
  if prefix "https://" s then
    option_map (fun hp => ("https", fst hp, snd hp)) (host_port (drop 8 s))
  else if prefix "http://" s then
    option_map (fun hp => ("http", fst hp, snd hp)) (host_port (drop 7 s))
  else None.

(** The groups of the first match, [None] when [findall] returns []. *)
Fixpoint findall_first (s : string) : option (string * string * string) :=
  match match_at s with
  | Some g => Some g
  | None =>
      match s with
      | "" => None
      | String _ s' => findall_first s'
      end
  end.

End Re.

Definition http_pipelining (urls : list string) (method : string)
           (buffer_size timeout : Z) (headers : list (string * string))
  : M (list Response) :=
  match urls with
  | [] => ret []
  | u0 :: _ =>
      match Re.findall_first u0 with
      | None => raise IndexError
      | Some (protocol, host, port) =>
          port <- lift (if (port =? "")%string then Ok 0
                        else let digits := slice_from port 1 in
                             if (digits =? "")%string then Ok 0
                             else int_or_raise digits) ;;
          let default_port :=
            if (protocol =? "https")%string then 443 else 80 in
          perform urls host (if port =? 0 then default_port else port)
                  method buffer_size false false headers
      end
  end.

(** ** [http_pipelining_with_retries] *)

(** The local variables the retry loop updates. *)
Record retry_state := mkRetry {
  total_ex : option exn;
  total_responses : list Response;
  backoff : Z;
  urls_to_perform : list string
}.

Inductive loop_exit := Continue | Break.

(** Line 200 reads the name [handled_urls].  The name is bound nowhere: it
    is no local of the function, no global of the module and no builtin, so
    evaluating it raises NameError. *)
Definition load_handled_urls : outcome (list string) :=
  Raise (NameError "handled_urls").

(** The comprehension [[u for u in need_urls if not u in handled_urls]]: the
    condition is evaluated once per element. *)
Fixpoint exclude_handled (need_urls : list string) : outcome (list string) :=
  match need_urls with
  | [] => Ok []
  | u :: rest =>
      handled_urls <-- load_handled_urls ;;
      kept <-- exclude_handled rest ;;
      Ok (if existsb (String.eqb u) handled_urls then kept else u :: kept)
  end.

Definition truthy {A} (o : option (list A)) : bool :=
  match o with
  | Some (_ :: _) => true
  | _ => false
  end.

Section Retries.

Variable method : string.
Variable buffer_size timeout : Z.
Variable backoff_factor : Z.
Variable status_forcelist : list Z.
Variable headers : list (string * string).

(** The [except Exception as ex] clause. *)
Definition on_exception (it : Z) (ex : exn) (st : retry_state)
  : M (retry_state * loop_exit) :=
  let ready_resps := getattr_ready_responses ex in
  r <- (if truthy ready_resps then
          let ready := match ready_resps with Some l => l | None => [] end in
          let handled := filter (fun r => status_code r <? 500) ready in
          let need_urls := urls_to_perform st in
          us <- lift (exclude_handled need_urls) ;;
          let st := mkRetry (total_ex st)
                            (total_responses st ++ handled)%list
                            (backoff st) us in
          ret (st, match us with [] => Break | _ => Continue end)
        else ret (st, Continue)) ;;
  match snd r with
  | Break => ret r
  | Continue =>
      let st := fst r in
      time_sleep (backoff st) ;;;
      ret (mkRetry (Some ex) (total_responses st)
                   (backoff st + it * backoff_factor) (urls_to_perform st),
           Continue)
  end.

(** One iteration of the [for] loop: the [try] block and its handler. *)
Definition attempt (it : Z) (st : retry_state) : M (retry_state * loop_exit) :=
  fun w =>
    let st := mkRetry None (total_responses st) (backoff st)
                      (urls_to_perform st) in
    match http_pipelining (urls_to_perform st) method buffer_size timeout
                          headers w with
    | (Ok responses, w') =>
        let resps :=
          filter (fun r => existsb (Z.eqb (status_code r)) status_forcelist)
                 responses in
        match resps with
        | _ :: _ =>
            on_exception it
              (RuntimeError "Response with code from forcelist" responses
                            (Some resps)) st w'
        | [] =>
            (Ok (mkRetry (total_ex st) (total_responses st ++ responses)%list
                         (backoff st) (urls_to_perform st), Break), w')
        end
    | (Raise ex, w') => on_exception it ex st w'
    end.

Fixpoint retry_loop (its : list Z) (st : retry_state) : M retry_state :=
  match its with
  | [] => ret st
  | it :: rest =>
      r <- attempt it st ;;
      match snd r with
      | Break => ret (fst r)
      | Continue => retry_loop rest (fst r)
      end
  end.

(** [range(0, max_retries)] *)
Definition range (n : Z) : list Z := map Z.of_nat (seq 0 (Z.to_nat n)).

Definition http_pipelining_with_retries (urls : list string)
           (max_retries : Z) : M (list Response) :=
  st <- retry_loop (range max_retries) (mkRetry None [] backoff_factor urls) ;;
  match total_ex st with
  | Some ex => raise ex
  | None => ret (total_responses st)
  end.

End Retries.

(** * Vocabulary of the statements *)

(** ** Lines of a packet *)

Section PacketLines.

Variable host method : string.
Variable connection_keep_alive : bool.
Variable input_headers : list (string * string).

(** A text as the list of its lines, each one ended by CRLF. *)
Definition unlines (ls : list string) : string :=
  fold_right (fun l acc => l ++ sep ++ acc) "" ls.

Definition header_line (kv : string * string) : string :=
  fst kv ++ ": " ++ snd kv.

Definition request_line (u : string) : string :=
  upper method ++ " " ++ u ++ " HTTP/1.1".

Definition request_lines (u : string) : list string :=
  request_line u :: ("Host: " ++ host) :: map header_line input_headers.

(** The blocks of lines, with one empty line between two blocks. *)
Fixpoint join_blocks (blocks : list (list string)) : list string :=
  match blocks with
  | [] => []
  | [b] => b
  | b :: bs => (b ++ "" :: join_blocks bs)%list
  end.

Definition packet_lines (urls : list string) : list string :=
  (join_blocks (map request_lines urls)
     ++ (if connection_keep_alive then [] else ["Connection: close"])
     ++ [""; ""])%list.

End PacketLines.

(** The message of the claim, [METHOD path HTTP/1.1 CRLF Host: host CRLF
    <headers> CRLF], for a given text [hd] of the header block. *)
Definition claimed_message (host method hd u : string) : string :=
  upper method ++ " " ++ u ++ " HTTP/1.1" ++ sep
    ++ "Host: " ++ host ++ sep ++ hd ++ sep.

Fixpoint last_char (s : string) : option ascii :=
  match s with
  | "" => None
  | String c "" => Some c
  | String _ s' => last_char s'
  end.

(** ** Outcomes, exceptions and events *)

(** A [recv] that ends the loop without adding data: an exception (a
    timeout among them) or no byte at all (the peer has closed). *)
Definition is_stop (r : recv_result) : Prop :=
  match r with
  | RecvRaise _ => True
  | RecvBytes packet => packet = ""
  end.

(** The exceptions of the framer and of the socket: every exception of the
    model but IndexError and NameError. *)
Definition framing_or_socket_error (e : exn) : Prop :=
  match e with
  | IndexError | NameError _ => False
  | _ => True
  end.

(** What a computation can return, what it can raise, and which events it
    can add to the trace, whatever the world. *)
Definition returns {A} (m : M A) (Q : A -> Prop) : Prop :=
  forall w a w', m w = (Ok a, w') -> Q a.

Definition raises {A} (m : M A) (P : exn -> Prop) : Prop :=
  forall w e w', m w = (Raise e, w') -> P e.

Definition appends {A} (m : M A) (ok : event -> Prop) : Prop :=
  forall w, exists evs,
    trace (snd (m w)) = (trace w ++ evs)%list /\ Forall ok evs.

Definition not_tls (ev : event) : Prop :=
  match ev with
  | EvTlsWrap _ => False
  | _ => True
  end.

Definition is_tls_wrap (ev : event) : bool :=
  match ev with
  | EvTlsWrap _ => true
  | _ => false
  end.

(** The world after [time.sleep(seconds)]. *)
Definition slept (seconds : Z) (w : World) : World :=
  mkWorld (future w) (sock w) (trace w ++ [EvSleep seconds])%list.

(** ** Urls and ports *)

Fixpoint has_slash (s : string) : bool :=
  match s with
  | "" => false
  | String c s' => Ascii.eqb c "/" || has_slash s'
  end.

Fixpoint all_digits (s : string) : bool :=
  match s with
  | "" => true
  | String c s' => is_digit c && all_digits s'
  end.

(** The text of the port group: empty, or a colon and at least one digit. *)
Definition port_shape (p : string) : Prop :=
  p = "" \/ exists ds, p = String ":" ds /\ ds <> "" /\ all_digits ds = true.

(** [port and int(port[1:] or 0)], with 0 for the empty text. *)
Definition explicit_port (port : string) : Z :=
  if (port =? "")%string then 0
  else match int (slice_from port 1) with
       | Some n => n
       | None => 0
       end.

(** [port or default_port] *)
Definition effective_port (protocol port : string) : Z :=
  if explicit_port port =? 0
  then (if (protocol =? "https")%string then 443 else 80)
  else explicit_port port.

(** ** Scenarios *)

(** Worlds of the scenarios: a server that answers a connection with the
    given packets and closes, and one that refuses the connection. *)
Definition answers (packets : list bytes) : sock_script :=
  mkScript None None (map RecvBytes packets) None.

Definition refuses : sock_script :=
  mkScript (Some "Connection refused") None [] None.

Definition world_of (scripts : list sock_script) : World :=
  mkWorld scripts closed_script [].

Definition status_only (code_reason : string) : bytes :=
  "HTTP/1.1 " ++ code_reason ++ sep ++ sep.

Definition default_forcelist : list Z := [500; 502; 503; 504].

(** * Properties *)

(** ** Facts on strings *)

Section StringFacts.

Lemma append_assoc (a b c : string) : (a ++ b) ++ c = a ++ (b ++ c).
Proof. induction a as [|x a IH]; simpl; [reflexivity | now rewrite IH]. Qed.

Lemma append_nil_r (a : string) : a ++ "" = a.
Proof. induction a as [|x a IH]; simpl; [reflexivity | now rewrite IH]. Qed.

Lemma last_char_append (a b : string) :
  b <> "" -> last_char (a ++ b) = last_char b.
Proof.
  intros Hb. induction a as [|x a IH]; simpl; [reflexivity|].
  destruct (a ++ b) eqn:E; [|exact IH].
  destruct a; simpl in E; [contradiction | discriminate].
Qed.

Lemma append_nonempty_r (a b : string) : b <> "" -> a ++ b <> "".
Proof. destruct a; simpl; [auto | discriminate]. Qed.

Lemma prefix_append_l (a b s : string) :
  prefix (a ++ b) s = true -> prefix a s = true.
Proof.
  revert s. induction a as [|x a IH]; intros s.
  - destruct s; reflexivity.
  - destruct s as [|y s]; simpl; [discriminate|].
    destruct (ascii_dec x y); [apply IH | discriminate].
Qed.

End StringFacts.

(** ** The packet builder *)

Section PacketFormat.

Variable host method : string.
Variable connection_keep_alive : bool.
Variable input_headers : list (string * string).

Lemma unlines_app (l1 l2 : list string) :
  unlines (l1 ++ l2)%list = unlines l1 ++ unlines l2.
Proof.
  induction l1 as [|x l1 IH]; simpl; [reflexivity|].
  now rewrite IH, !append_assoc.
Qed.

Lemma concat_empty_cons (x : string) (xs : list string) :
  String.concat "" (x :: xs) = x ++ String.concat "" xs.
Proof. destruct xs; simpl; [now rewrite append_nil_r | reflexivity]. Qed.

Lemma intput_headers_str_lines :
  intput_headers_str input_headers = unlines (map header_line input_headers).
Proof.
  unfold intput_headers_str, header_line.
  induction input_headers as [|kv hs IH]; [reflexivity|].
  cbn [map]. rewrite concat_empty_cons, IH. cbn [unlines fold_right].
  now rewrite !append_assoc.
Qed.

Lemma request_message_lines (u : string) :
  request_message host method input_headers u
= unlines (request_lines host method input_headers u).
Proof.
  unfold request_message, request_lines, request_line.
  rewrite intput_headers_str_lines. cbn [unlines fold_right].
  now rewrite !append_assoc.
Qed.

Lemma concat_sep_blocks (urls : list string) :
  String.concat sep (map (request_message host method input_headers) urls)
  = unlines (join_blocks (map (request_lines host method input_headers) urls)).
Proof.
  induction urls as [|u us IH]; [reflexivity|].
  destruct us as [|u' us].
  - cbn [map String.concat join_blocks]. apply request_message_lines.
  - change (String.concat sep (map ?f (u :: u' :: us)))
      with (f u ++ sep ++ String.concat sep (map f (u' :: us))).
    rewrite IH, request_message_lines.
    change (join_blocks (map ?g (u :: u' :: us)))
      with (g u ++ "" :: join_blocks (map g (u' :: us)))%list.
    rewrite unlines_app. reflexivity.
Qed.

Lemma request_line_not_close (u : string) :
  request_line method u <> "Connection: close".
Proof.
  unfold request_line. intros E.
  assert (L : last_char (upper method ++ " " ++ u ++ " HTTP/1.1")
              = Some "1"%char).
  { rewrite last_char_append.
    - change (" " ++ u ++ " HTTP/1.1") with (String " " (u ++ " HTTP/1.1")).
      assert (N : u ++ " HTTP/1.1" <> "")
        by (apply append_nonempty_r; discriminate).
      cbn [last_char]. destruct (u ++ " HTTP/1.1") eqn:Eu; [contradiction|].
      rewrite <- Eu. rewrite last_char_append; [reflexivity | discriminate].
    - discriminate. }
  rewrite E in L. discriminate.
Qed.

Lemma In_join_blocks (x : string) (blocks : list (list string)) :
  In x (join_blocks blocks) -> x = "" \/ exists b, In b blocks /\ In x b.
Proof.
  induction blocks as [|b bs IH]; [intros []|].
  destruct bs as [|b' bs].
  - cbn [join_blocks]. intros H. right. exists b. split; [now left | exact H].
  - change (join_blocks (b :: b' :: bs))
      with (b ++ "" :: join_blocks (b' :: bs))%list.
    intros H. apply in_app_or in H. destruct H as [H | [H | H]].
    + right. exists b. split; [now left | exact H].
    + left. now symmetry.
    + destruct (IH H) as [E | [c [Hc Hx]]]; [now left|].
      right. exists c. split; [now right | exact Hx].
Qed.

End PacketFormat.




(** ** The receive loop *)

(** C7, as the code has it.  [recvall] returns the initial buffer extended
    by the packets read, all of them non-empty; before each read the buffer
    held a number of separators different from [resp_count]; and the loop
    ended either because the buffer holds exactly [resp_count] separators
    (no further read is made), or, with another number of separators in the
    buffer, at a read that raised or returned no byte (the end of the script
    being the closed peer).  Nothing is raised in either case. *)
Theorem recvall_exit_condition :
  forall (recvs : list recv_result) (resp_count : nat) (data0 : bytes),
    let result := recvall_from recvs resp_count data0 in
    let data := fst (fst result) in
    let rest := snd (fst result) in
    let calls := snd result in
    exists chunks : list bytes,
      data = data0 ++ String.concat "" chunks
      /\ Forall (fun p => p <> "") chunks
      /\ (forall k, (k < List.length chunks)%nat ->
            count data_sep (data0 ++ String.concat "" (firstn k chunks))
            <> resp_count)
      /\ ((count data_sep data = resp_count
           /\ recvs = (map RecvBytes chunks ++ rest)%list
           /\ calls = List.length chunks)
          \/ (count data_sep data <> resp_count
              /\ calls = S (List.length chunks)
              /\ ((recvs = map RecvBytes chunks /\ rest = [])
                  \/ exists stop, is_stop stop
                       /\ recvs = (map RecvBytes chunks ++ stop :: rest)%list))).
Proof.
  cbv zeta. intros recvs resp_count.
  induction recvs as [|r recvs IH]; intros data0.
  - exists []. cbn [recvall_from String.concat List.length firstn map app].
    rewrite append_nil_r.
    destruct (count data_sep data0 =? resp_count)%nat eqn:E; cbn [fst snd].
    + apply Nat.eqb_eq in E. repeat split; auto; try (intros k Hk; inversion Hk).
    + apply Nat.eqb_neq in E.
      repeat split; auto; try (intros k Hk; inversion Hk).
      right. repeat split; auto.
  - cbn [recvall_from].
    destruct (count data_sep data0 =? resp_count)%nat eqn:E.
    + apply Nat.eqb_eq in E. exists [].
      cbn [fst snd String.concat List.length firstn map app].
      rewrite append_nil_r.
      repeat split; auto; try (intros k Hk; inversion Hk).
    + apply Nat.eqb_neq in E. destruct r as [packet | msg].
      * destruct (packet =? "")%string eqn:Ep.
        -- apply String.eqb_eq in Ep. subst packet. exists [].
           cbn [fst snd String.concat List.length firstn map app].
           rewrite append_nil_r.
           repeat split; auto; try (intros k Hk; inversion Hk).
           right. repeat split; auto. right.
           exists (RecvBytes ""). split; [reflexivity | reflexivity].
        -- apply String.eqb_neq in Ep.
           specialize (IH (data0 ++ packet)).
           destruct (recvall_from recvs resp_count (data0 ++ packet))
             as [[d rest] k].
           cbn [fst snd] in IH |- *.
           destruct IH as [chunks [Hd [Hne [Hbefore Hexit]]]].
           exists (packet :: chunks).
           rewrite concat_empty_cons, <- append_assoc.
           split; [exact Hd|]. split; [now constructor|]. split.
           { intros [|j] Hj.
             - cbn [firstn String.concat]. now rewrite append_nil_r.
             - cbn [firstn]. rewrite concat_empty_cons, <- append_assoc.
               apply Hbefore. cbn [List.length] in Hj. lia. }
           cbn [List.length map app].
           destruct Hexit as [[Hc [Hr Hk]] | [Hc [Hk Hr]]].
           ++ left. repeat split; auto. now rewrite Hr.
           ++ right. repeat split; auto.
              destruct Hr as [[Hr1 Hr2] | [stop [Hs Hr]]].
              ** left. split; [now rewrite Hr1 | exact Hr2].
              ** right. exists stop. split; [exact Hs | now rewrite Hr].
      * exists []. cbn [fst snd String.concat List.length firstn map app].
        rewrite append_nil_r.
        repeat split; auto; try (intros k Hk; inversion Hk).
        right. repeat split; auto. right.
        exists (RecvRaise msg). split; [exact I | reflexivity].
Qed.

(** C7 as stated fails: one response is expected and the first read
    brings a response whose body holds a second separator, so the buffer has
    two separators, which is at least one; the loop does not stop there, it
    reads on until the peer closes and returns the later bytes too. *)
Lemma recvall_exit_condition_counterexample :
  let first := "HTTP/1.1 200 OK" ++ sep ++ "Content-Length: 4" ++ sep ++ sep
                 ++ sep ++ sep in
  (1 <= count data_sep first)%nat
  /\ recvall_from [RecvBytes first; RecvBytes "late"] 1 ""
     = (first ++ "late", [], 3%nat).
Proof. cbv zeta. split; [vm_compute; lia | reflexivity]. Qed.

(** ** The framer on concrete buffers *)

(** C1 at a failing input.  Two well-formed responses with bodies [hello]
    and [hi], method GET: both are framed, with the right status and headers
    and nothing left over, but each body is the slice [raw[start:offset]],
    whose upper bound is the body length and not [start + offset]: the
    bodies come out empty. *)
Theorem framing_round_trip_at_bodies :
  let a := "HTTP/1.1 200 OK" ++ sep ++ "Content-Length: 5" ++ sep ++ sep
             ++ "hello" in
  let b := "HTTP/1.1 404 Not Found" ++ sep ++ "Content-Length: 2" ++ sep
             ++ sep ++ "hi" in
  parse_response ["http://x/a"; "http://x/b"] "GET" (a ++ b)
  = Ok [ mkResponse 200 "OK" [("content-length", "5")] (Some "") "http://x/a";
         mkResponse 404 "Not Found" [("content-length", "2")] (Some "")
                    "http://x/b" ].
Proof. reflexivity. Qed.

(** C8 at failing inputs.  (1) The buffer holds one complete response and
    the beginning of a second: the framer raises the ValueError of the
    header parser, which carries no response.  (2) The buffer holds only a
    status line cut short, with no separator: [find] returns -1, the slice
    [raw[0:-1]] drops the last byte and the framer returns, as a success, a
    response parsed from the fragment. *)
Theorem partial_frame_at_truncations :
  let ok := "HTTP/1.1 200 OK" ++ sep ++ sep in
  parse_response ["http://x/a"; "http://x/b"] "HEAD"
                 (ok ++ "HTTP/1.1 200 OK" ++ sep ++ "Conte")
  = Raise (ValueError "not enough values to unpack")
  /\ getattr_ready_responses (ValueError "not enough values to unpack") = None
  /\ parse_response ["http://x/a"] "HEAD" "HTTP/1.1 200 OK"
     = Ok [mkResponse 200 "O" [] None "http://x/a"].
Proof. cbv zeta. repeat split. Qed.

(** ** The empty batch *)

(** C9.  For the empty url list both entry points return the empty list,
    in any world and for any parameters, and leave the world as it was: no
    socket is created, nothing is sent, nothing sleeps. *)
Theorem empty_batch :
  forall (method : string) (buffer_size timeout backoff_factor max_retries : Z)
         (status_forcelist : list Z) (headers : list (string * string))
         (w : World),
    http_pipelining [] method buffer_size timeout headers w = (Ok [], w)
    /\ http_pipelining_with_retries method buffer_size timeout backoff_factor
         status_forcelist headers [] max_retries w = (Ok [], w).
Proof.
  intros. split; [reflexivity|].
  unfold http_pipelining_with_retries, range.
  destruct (Z.to_nat max_retries); reflexivity.
Qed.

(** ** What the framer returns and raises *)

Ltac split_matches H :=
  repeat match type of H with
         | context [match ?x with _ => _ end] => destruct x eqn:?; try discriminate
         | context [if ?x then _ else _] => destruct x eqn:?; try discriminate
         end.

Lemma get_response_url (method : string) (raw : bytes) (u : string)
      (resp : Response) (rest : bytes) :
  get_response method raw u = Ok (resp, rest) -> url resp = u.
Proof.
  unfold get_response, obind. intros H. split_matches H.
  all: now inversion H.
Qed.

Lemma prepare_headers_from_raises (raw_headers : list string)
      (hs : CaseInsensitiveDict) (e : exn) :
  prepare_headers_from raw_headers hs = Raise e -> framing_or_socket_error e.
Proof.
  revert hs. induction raw_headers as [|h rest IH]; intros hs; cbn [prepare_headers_from].
  - discriminate.
  - intros H. split_matches H; try (inversion H; exact I).
    eapply IH; eassumption.
Qed.

Lemma int_or_raise_raises (s : string) (e : exn) :
  int_or_raise s = Raise e -> framing_or_socket_error e.
Proof. unfold int_or_raise. destruct (int s); intros H; inversion H. exact I. Qed.

Lemma get_response_raises (method : string) (raw : bytes) (u : string) (e : exn) :
  get_response method raw u = Raise e -> framing_or_socket_error e.
Proof.
  unfold get_response, decode, prepare_headers, obind. intros H.
  split_matches H.
  all: inversion H; subst; clear H; try exact I.
  all: repeat match goal with
              | H : (if ?x then _ else _) = Raise _ |- _ =>
                  destruct x; try discriminate
              | H : match ?x with _ => _ end = Raise _ |- _ =>
                  destruct x; try discriminate
              end.
  all: eauto using int_or_raise_raises, prepare_headers_from_raises.
  match goal with H : Raise _ = Raise _ |- _ => inversion H end. exact I.
Qed.

Lemma parse_loop_urls (method : string) (us : list string) :
  forall (content : bytes) (prepared rs : list Response),
    parse_loop method us content prepared = Ok rs ->
    exists rs', rs = (prepared ++ rs')%list
                /\ map url rs' = firstn (List.length rs') us.
Proof.
  induction us as [|u us IH]; intros content prepared rs; cbn [parse_loop].
  - intros H. inversion H. exists []. now rewrite app_nil_r.
  - unfold obind. destruct (get_response method content u) as [[resp rest]|e] eqn:G;
      [|discriminate].
    apply get_response_url in G. cbn [fst snd].
    destruct (rest =? "")%string.
    + intros H. inversion H. exists [resp]. split; [reflexivity|].
      cbn. now rewrite G.
    + intros H. apply IH in H. destruct H as [rs' [-> Hm]].
      exists (resp :: rs'). rewrite <- app_assoc. split; [reflexivity|].
      cbn. now rewrite G, Hm.
Qed.

Lemma parse_loop_raises (method : string) (us : list string) :
  forall (content : bytes) (prepared : list Response) (e : exn),
    parse_loop method us content prepared = Raise e ->
    framing_or_socket_error e.
Proof.
  induction us as [|u us IH]; intros content prepared e; cbn [parse_loop].
  - discriminate.
  - unfold obind. destruct (get_response method content u) as [[resp rest]|e'] eqn:G.
    + cbn [fst snd]. destruct (rest =? "")%string; [discriminate | apply IH].
    + intros H. inversion H. subst. eapply get_response_raises; eassumption.
Qed.

(** A successful framing holds one response per url, in the order of the
    urls. *)
Lemma parse_response_urls (urls : list string) (method : string)
      (content : bytes) (rs : list Response) :
  parse_response urls method content = Ok rs -> map url rs = urls.
Proof.
  unfold parse_response, obind.
  destruct (parse_loop method urls content []) as [prepared|e] eqn:L;
    [|discriminate].
  destruct (List.length prepared =? List.length urls)%nat eqn:E; [|discriminate].
  intros H. inversion H. subst rs. apply Nat.eqb_eq in E.
  apply parse_loop_urls in L. destruct L as [rs' [-> Hm]]. cbn [app] in *.
  rewrite Hm, E. apply firstn_all.
Qed.

Lemma parse_response_raises (urls : list string) (method : string)
      (content : bytes) (e : exn) :
  parse_response urls method content = Raise e -> framing_or_socket_error e.
Proof.
  unfold parse_response, obind.
  destruct (parse_loop method urls content []) as [prepared|e'] eqn:L.
  - destruct (List.length prepared =? List.length urls)%nat; [discriminate|].
    intros H. inversion H. exact I.
  - intros H. inversion H. subst. eapply parse_loop_raises; eassumption.
Qed.

(** ** Reasoning in the monad of effects *)

Section MonadFacts.

Context {A B : Type}.

Lemma returns_ret (a : A) (Q : A -> Prop) : Q a -> returns (ret a) Q.
Proof. intros H w a' w' E. inversion E. now subst. Qed.

Lemma returns_raise (e : exn) (Q : A -> Prop) : returns (@raise A e) Q.
Proof. intros w a w' E. inversion E. Qed.

Lemma returns_lift (o : outcome A) (Q : A -> Prop) :
  (forall a, o = Ok a -> Q a) -> returns (lift o) Q.
Proof. intros H w a w' E. inversion E. auto. Qed.

Lemma raises_ret (a : A) (P : exn -> Prop) : raises (ret a) P.
Proof. intros w e w' E. inversion E. Qed.

Lemma raises_raise (e : exn) (P : exn -> Prop) :
  P e -> raises (@raise A e) P.
Proof. intros H w e' w' E. inversion E. now subst. Qed.

Lemma raises_lift (o : outcome A) (P : exn -> Prop) :
  (forall e, o = Raise e -> P e) -> raises (lift o) P.
Proof. intros H w e w' E. inversion E. auto. Qed.

Lemma appends_ret (a : A) (ok : event -> Prop) : appends (ret a) ok.
Proof. intros w. exists []. cbn. now rewrite app_nil_r. Qed.

Lemma appends_raise (e : exn) (ok : event -> Prop) :
  appends (@raise A e) ok.
Proof. intros w. exists []. cbn. now rewrite app_nil_r. Qed.

Lemma appends_lift (o : outcome A) (ok : event -> Prop) :
  appends (lift o) ok.
Proof. intros w. exists []. cbn. now rewrite app_nil_r. Qed.

Lemma returns_bind (m : M B) (f : B -> M A) (Q : A -> Prop) :
  (forall b, returns (f b) Q) -> returns (bind m f) Q.
Proof.
  intros Hf w a w'. unfold bind.
  destruct (m w) as [[b|e] w1]; [apply Hf | discriminate].
Qed.

Lemma raises_bind (m : M B) (f : B -> M A) (P : exn -> Prop) :
  raises m P -> (forall b, raises (f b) P) -> raises (bind m f) P.
Proof.
  intros Hm Hf w e w'. unfold bind.
  destruct (m w) as [[b|e1] w1] eqn:E; [apply Hf|].
  intros H. inversion H. subst. eapply Hm; eassumption.
Qed.

Lemma appends_bind (m : M B) (f : B -> M A) (ok : event -> Prop) :
  appends m ok -> (forall b, appends (f b) ok) -> appends (bind m f) ok.
Proof.
  intros Hm Hf w. unfold bind. destruct (Hm w) as [evs [Ht Hok]].
  destruct (m w) as [[b|e] w1]; cbn [snd] in *.
  - destruct (Hf b w1) as [evs' [Ht' Hok']].
    exists (evs ++ evs')%list. rewrite Ht', Ht, app_assoc.
    split; [reflexivity | now apply Forall_app].
  - exists evs. now split.
Qed.

Lemma returns_finally (body : M A) (cleanup : M unit) (Q : A -> Prop) :
  returns body Q -> returns (finally body cleanup) Q.
Proof.
  intros Hb w a w'. unfold finally.
  destruct (body w) as [r w1] eqn:E.
  destruct (cleanup w1) as [[[]|e] w2]; [|discriminate].
  intros H. inversion H. subst. eapply Hb; eassumption.
Qed.

Lemma raises_finally (body : M A) (cleanup : M unit) (P : exn -> Prop) :
  raises body P -> raises cleanup P -> raises (finally body cleanup) P.
Proof.
  intros Hb Hc w e w'. unfold finally.
  destruct (body w) as [r w1] eqn:E.
  destruct (cleanup w1) as [[[]|e1] w2] eqn:C.
  - intros H. inversion H. subst. eapply Hb; eassumption.
  - intros H. inversion H. subst. eapply Hc; eassumption.
Qed.

Lemma appends_finally (body : M A) (cleanup : M unit) (ok : event -> Prop) :
  appends body ok -> appends cleanup ok -> appends (finally body cleanup) ok.
Proof.
  intros Hb Hc w. unfold finally. destruct (Hb w) as [evs [Ht Hok]].
  destruct (body w) as [r w1]; cbn [snd] in *.
  destruct (Hc w1) as [evs' [Ht' Hok']].
  exists (evs ++ evs')%list.
  destruct (cleanup w1) as [[[]|e] w2]; cbn [snd] in *;
    rewrite Ht', Ht, app_assoc; (split; [reflexivity | now apply Forall_app]).
Qed.

End MonadFacts.

(** ** The transport *)

Lemma raises_emit (ev : event) (P : exn -> Prop) : raises (emit ev) P.
Proof. intros w e w' E. inversion E. Qed.

Lemma appends_emit (ev : event) (ok : event -> Prop) :
  ok ev -> appends (emit ev) ok.
Proof. intros H w. exists [ev]. cbn. split; [reflexivity | now constructor]. Qed.

Lemma raises_raise_if (sel : sock_script -> option string) :
  raises (fun w => raise_if (sel (sock w)) w) framing_or_socket_error.
Proof.
  intros w e w'. unfold raise_if. destruct (sel (sock w)); intros E; inversion E.
  exact I.
Qed.

Lemma appends_raise_if (sel : sock_script -> option string)
      (ok : event -> Prop) :
  appends (fun w => raise_if (sel (sock w)) w) ok.
Proof.
  intros w. exists []. unfold raise_if.
  destruct (sel (sock w)); cbn; now rewrite app_nil_r.
Qed.

Lemma raises_socket_socket (P : exn -> Prop) : raises socket_socket P.
Proof.
  intros w e w'. unfold socket_socket. destruct (future w); intros E; inversion E.
Qed.

Lemma raises_recvall (buffer_size : Z) (n : nat) (P : exn -> Prop) :
  raises (recvall buffer_size n) P.
Proof.
  intros w e w'. unfold recvall.
  destruct (recvall_from (on_recv (sock w)) n "") as [[d r] k].
  intros E. inversion E.
Qed.

Lemma appends_recvall (buffer_size : Z) (n : nat) (ok : event -> Prop) :
  ok (EvRecv buffer_size) -> appends (recvall buffer_size n) ok.
Proof.
  intros H w. unfold recvall.
  destruct (recvall_from (on_recv (sock w)) n "") as [[d r] k].
  exists (repeat (EvRecv buffer_size) k). cbn. split; [reflexivity|].
  apply Forall_forall. intros ev Hin. apply repeat_spec in Hin. now subst.
Qed.

Ltac raises_step :=
  first [ apply raises_ret | apply raises_emit | apply raises_recvall
        | apply raises_socket_socket
        | apply (raises_raise_if on_connect)
        | apply (raises_raise_if on_sendall)
        | apply (raises_raise_if on_shutdown)
        | apply raises_bind; [|intros ?] ].

Ltac appends_step :=
  first [ apply appends_ret | apply appends_lift
        | apply appends_emit; exact I
        | apply appends_recvall; exact I
        | apply (appends_raise_if on_connect)
        | apply (appends_raise_if on_sendall)
        | apply (appends_raise_if on_shutdown)
        | apply appends_bind; [|intros ?] ].

Section PerformFacts.

Variable urls : list string.
Variable host : string.
Variable port : Z.
Variable method : string.
Variable buffer_size : Z.
Variable use_ssl connection_keep_alive : bool.
Variable input_headers : list (string * string).

Let body : M (list Response) :=
  raw <- read_response_sock urls host port method buffer_size
                            connection_keep_alive input_headers ;;
  lift (parse_response urls method raw).

Lemma body_returns : returns body (fun rs => map url rs = urls).
Proof.
  apply returns_bind. intros raw. apply returns_lift.
  intros rs. apply parse_response_urls.
Qed.

Lemma body_raises : raises body framing_or_socket_error.
Proof.
  apply raises_bind.
  - unfold read_response_sock, sock_connect, sock_sendall, sock_shutdown.
    repeat raises_step.
  - intros raw. apply raises_lift. intros e. apply parse_response_raises.
Qed.

Lemma perform_returns :
  returns (perform urls host port method buffer_size use_ssl
                   connection_keep_alive input_headers)
          (fun rs => map url rs = urls).
Proof.
  unfold perform, read_response_ssl, read_response.
  destruct (use_ssl || (port =? 443));
    repeat (apply returns_bind; intros _);
    apply returns_finally, body_returns.
Qed.

Lemma perform_raises :
  raises (perform urls host port method buffer_size use_ssl
                  connection_keep_alive input_headers)
         framing_or_socket_error.
Proof.
  unfold perform, read_response_ssl, read_response, sock_close.
  destruct (use_ssl || (port =? 443));
    repeat first [ apply raises_socket_socket | apply raises_emit
                 | apply raises_bind | intros _ ];
    apply raises_finally; auto using body_raises, raises_emit.
Qed.

(** The events of one connection, once the socket exists: the connect
    comes first, and no TLS wrapping follows. *)
Lemma body_trace (w : World) :
  exists tail,
    trace (snd (finally body sock_close w))
    = (trace w ++ EvConnect host port :: tail)%list
    /\ Forall not_tls tail.
Proof.
  pose (w1 := mkWorld (future w) (sock w)
                      (trace w ++ [EvConnect host port])%list).
  pose (body' :=
          raw <- ((fun w => raise_if (on_connect (sock w)) w) ;;;
                  sock_sendall
                    (prepare_packet urls host method connection_keep_alive
                                    input_headers) ;;;
                  raw_responses <- recvall buffer_size (List.length urls) ;;
                  sock_shutdown ;;;
                  ret raw_responses) ;;
          lift (parse_response urls method raw)).
  assert (E : finally body sock_close w = finally body' sock_close w1)
    by reflexivity.
  assert (Ha : appends (finally body' sock_close) not_tls).
  { unfold body', sock_sendall, sock_shutdown, sock_close.
    apply appends_finally; repeat appends_step. }
  destruct (Ha w1) as [evs [Ht Hok]].
  exists evs. rewrite E, Ht. unfold w1. cbn [trace].
  rewrite <- app_assoc. now split.
Qed.

Lemma perform_trace (w : World) :
  exists tail,
    trace (snd (perform urls host port method buffer_size use_ssl
                        connection_keep_alive input_headers w))
    = (trace w ++ EvSocket
         :: (if use_ssl || (port =? 443) then [EvTlsWrap host] else [])
         ++ EvConnect host port :: tail)%list
    /\ Forall not_tls tail.
Proof.
  pose (opened := match future w with
                  | [] => mkWorld [] closed_script (trace w ++ [EvSocket])%list
                  | s :: rest => mkWorld rest s (trace w ++ [EvSocket])%list
                  end).
  assert (Eo : trace opened = (trace w ++ [EvSocket])%list)
    by (unfold opened; destruct (future w); reflexivity).
  assert (Es : forall k : M (list Response),
             bind socket_socket (fun _ => k) w = k opened)
    by (intros k; unfold bind, socket_socket, opened;
        destruct (future w); reflexivity).
  unfold perform, read_response_ssl, read_response.
  destruct (use_ssl || (port =? 443)); rewrite Es.
  - change ((emit (EvTlsWrap host) ;;; ?k) opened)
      with (k (mkWorld (future opened) (sock opened)
                       (trace opened ++ [EvTlsWrap host])%list)).
    destruct (body_trace (mkWorld (future opened) (sock opened)
                            (trace opened ++ [EvTlsWrap host])%list))
      as [tail [Ht Hok]].
    unfold body in Ht. exists tail. rewrite Ht. cbn [trace app].
    rewrite Eo, <- !app_assoc. now split.
  - destruct (body_trace opened) as [tail [Ht Hok]].
    unfold body in Ht. exists tail. rewrite Ht. cbn [trace app].
    rewrite Eo, <- !app_assoc. now split.
Qed.

End PerformFacts.

(** A successful single-shot call holds one response per url, in order. *)
Lemma http_pipelining_returns (urls : list string) (method : string)
      (buffer_size timeout : Z) (headers : list (string * string)) :
  returns (http_pipelining urls method buffer_size timeout headers)
          (fun rs => map url rs = urls).
Proof.
  unfold http_pipelining. destruct urls as [|u0 rest].
  - now apply returns_ret.
  - destruct (Re.findall_first u0) as [[[protocol host] port]|].
    + apply returns_bind. intros p. apply perform_returns.
    + apply returns_raise.
Qed.

Lemma http_pipelining_raises (u0 : string) (rest : list string)
      (method : string) (buffer_size timeout : Z)
      (headers : list (string * string)) :
  Re.findall_first u0 <> None ->
  raises (http_pipelining (u0 :: rest) method buffer_size timeout headers)
         framing_or_socket_error.
Proof.
  unfold http_pipelining. intros Hm.
  destruct (Re.findall_first u0) as [[[protocol host] port]|]; [|contradiction].
  apply raises_bind.
  - apply raises_lift. intros e.
    destruct (port =? "")%string; [discriminate|].
    destruct (slice_from port 1 =? "")%string; [discriminate|].
    apply int_or_raise_raises.
  - intros p. apply perform_raises.
Qed.

(** ** The url pattern *)

Lemma span_digits_rest_slash (s : string) :
  has_slash (snd (Re.span_digits s)) = true -> has_slash s = true.
Proof.
  induction s as [|c s IH]; cbn [Re.span_digits]; [auto|].
  destruct (is_digit c); cbn [snd has_slash]; [|auto].
  intros H. rewrite (IH H). apply orb_true_r.
Qed.

Lemma port_slash_has_slash (s p : string) :
  Re.port_slash s = Some p -> has_slash s = true.
Proof.
  destruct s as [|c s]; cbn [Re.port_slash has_slash]; [discriminate|].
  destruct (Ascii.eqb c ":") eqn:Ec.
  - destruct (Re.span_digits s) as [ds after] eqn:Es.
    destruct ds as [|d ds]; [discriminate|].
    destruct after as [|c' after]; [discriminate|].
    destruct (Ascii.eqb c' "/") eqn:E'; [|discriminate].
    intros _. rewrite (span_digits_rest_slash s); [apply orb_true_r|].
    rewrite Es. cbn [snd has_slash]. now rewrite E'.
  - destruct (Ascii.eqb c "/"); [reflexivity | discriminate].
Qed.

Lemma host_port_has_slash (s : string) (hp : string * string) :
  Re.host_port s = Some hp -> has_slash s = true.
Proof.
  revert hp. induction s as [|c s IH]; intros hp; cbn [Re.host_port].
  - destruct (Re.port_slash "") eqn:E; [|discriminate].
    intros _. eapply port_slash_has_slash; eassumption.
  - destruct (Re.port_slash (String c s)) eqn:E.
    + intros _. eapply port_slash_has_slash; eassumption.
    + destruct (Ascii.eqb c LF); [discriminate|].
      destruct (Re.host_port s) as [[h p]|]; [|discriminate].
      intros _. cbn [has_slash]. rewrite (IH _ eq_refl). apply orb_true_r.
Qed.

Lemma prefix_has_slash (p s : string) :
  prefix p s = true -> has_slash p = true -> has_slash s = true.
Proof.
  revert s. induction p as [|x p IH]; intros s; [discriminate 2|].
  destruct s as [|y s]; cbn [prefix has_slash]; [discriminate|].
  destruct (ascii_dec x y) as [->|]; [|discriminate].
  intros Hp Hs. apply orb_true_iff in Hs. apply orb_true_iff.
  destruct Hs as [Hs|Hs]; [now left | right; now apply IH].
Qed.

Lemma match_at_has_slash (s : string) (g : string * string * string) :
  Re.match_at s = Some g -> has_slash s = true.
Proof.
  unfold Re.match_at.
  destruct (prefix "https://" s) eqn:E1.
  - intros _. now apply (prefix_has_slash "https://").
  - destruct (prefix "http://" s) eqn:E2; [|discriminate].
    intros _. now apply (prefix_has_slash "http://").
Qed.

Lemma match_at_prefix_http (s : string) (g : string * string * string) :
  Re.match_at s = Some g -> prefix "http" s = true.
Proof.
  unfold Re.match_at.
  destruct (prefix "https://" s) eqn:E1.
  - intros _. now apply (prefix_append_l "http" "s://").
  - destruct (prefix "http://" s) eqn:E2; [|discriminate].
    intros _. now apply (prefix_append_l "http" "://").
Qed.

(** A text without a slash has no match. *)
Lemma findall_first_no_slash (s : string) :
  has_slash s = false -> Re.findall_first s = None.
Proof.
  induction s as [|c s IH]; intros H; cbn [Re.findall_first].
  - reflexivity.
  - destruct (Re.match_at (String c s)) eqn:E.
    + apply match_at_has_slash in E. congruence.
    + apply IH. cbn [has_slash] in H. now apply orb_false_iff in H.
Qed.

(** A text in which [http] does not occur has no match. *)
Lemma findall_first_no_http (s : string) :
  find "http" s = -1 -> Re.findall_first s = None.
Proof.
  unfold find. destruct (find_nat "http" s) eqn:F; [lia|]. intros _.
  induction s as [|c s IH].
  - reflexivity.
  - cbn [Re.findall_first].
    destruct (Re.match_at (String c s)) eqn:E.
    + apply match_at_prefix_http in E.
      change (find_nat "http" (String c s))
        with (if prefix "http" (String c s) then Some O
              else option_map S (find_nat "http" s)) in F.
      rewrite E in F. discriminate.
    + apply IH.
      change (find_nat "http" (String c s))
        with (if prefix "http" (String c s) then Some O
              else option_map S (find_nat "http" s)) in F.
      destruct (prefix "http" (String c s)); [discriminate|].
      destruct (find_nat "http" s); [discriminate | reflexivity].
Qed.

(** An http or https url with no slash after the authority has no match. *)
Lemma findall_first_no_path (a : string) :
  has_slash a = false ->
  Re.findall_first ("http://" ++ a) = None
  /\ Re.findall_first ("https://" ++ a) = None.
Proof.
  intros H.
  assert (Hp : Re.host_port a = None).
  { destruct (Re.host_port a) eqn:E; [|reflexivity].
    apply host_port_has_slash in E. congruence. }
  pose proof (findall_first_no_slash a H) as Hf.
  assert (P0 : prefix "" a = true) by (destruct a; reflexivity).
  split; cbn; unfold Re.match_at; cbn; now rewrite P0, Hp, Hf.
Qed.


(** ** The retry loop *)

Lemma exclude_handled_raises (need_urls : list string) :
  need_urls <> [] ->
  exclude_handled need_urls = Raise (NameError "handled_urls").
Proof. destruct need_urls; [contradiction | reflexivity]. Qed.

Section RetryFacts.

Variable method : string.
Variable buffer_size timeout : Z.
Variable backoff_factor : Z.
Variable status_forcelist : list Z.
Variable headers : list (string * string).

Let single (urls : list string) : M (list Response) :=
  http_pipelining urls method buffer_size timeout headers.

(** The handler either stops at the unbound name, when the exception
    carries responses, or records the exception, sleeps and goes on. *)
Lemma on_exception_cases (it : Z) (ex : exn) (st : retry_state) (w : World) :
  urls_to_perform st <> [] ->
  on_exception backoff_factor it ex st w
  = if truthy (getattr_ready_responses ex)
    then (Raise (NameError "handled_urls"), w)
    else (Ok (mkRetry (Some ex) (total_responses st)
                      (backoff st + it * backoff_factor)
                      (urls_to_perform st), Continue),
          slept (backoff st) w).
Proof.
  intros Hu. unfold on_exception.
  destruct (truthy (getattr_ready_responses ex)).
  - unfold bind, lift. now rewrite (exclude_handled_raises _ Hu).
  - reflexivity.
Qed.

Lemma attempt_cases (it : Z) (st : retry_state) (w : World) :
  total_responses st = [] ->
  match attempt method buffer_size timeout backoff_factor status_forcelist
                headers it st w with
  | (Raise e, _) => e = NameError "handled_urls"
  | (Ok (st', Break), w') =>
      total_ex st' = None
      /\ map url (total_responses st') = urls_to_perform st
      /\ single (urls_to_perform st) w = (Ok (total_responses st'), w')
  | (Ok (st', Continue), w') =>
      total_responses st' = []
      /\ urls_to_perform st' = urls_to_perform st
      /\ exists e w2,
           single (urls_to_perform st) w = (Raise e, w2)
           /\ total_ex st' = Some e
           /\ w' = slept (backoff st) w2
  end.
Proof.
  intros Ht. unfold attempt. cbn [urls_to_perform total_responses backoff total_ex].
  destruct (http_pipelining (urls_to_perform st) method buffer_size timeout
                            headers w) as [[responses|ex] w1] eqn:HP.
  - pose proof (http_pipelining_returns _ _ _ _ _ _ _ _ HP) as Hm.
    cbn beta in Hm.
    destruct (filter _ responses) as [|r0 resps] eqn:F.
    + rewrite Ht. cbn [app]. repeat split; auto.
    + assert (Hr : responses <> []).
      { intros ->. discriminate. }
      assert (Hu : urls_to_perform st <> []).
      { intros E. rewrite E in Hm. destruct responses; [auto | discriminate]. }
      rewrite on_exception_cases by exact Hu.
      cbn [getattr_ready_responses truthy].
      destruct responses; [contradiction | reflexivity].
  - assert (Hu : urls_to_perform st <> []).
    { intros E. rewrite E in HP. discriminate. }
    rewrite on_exception_cases by exact Hu.
    destruct (truthy (getattr_ready_responses ex)); [reflexivity|].
    cbn [total_responses urls_to_perform backoff total_ex].
    repeat split; auto. exists ex, w1. repeat split; auto.
Qed.

(** The loop over the attempts, started with nothing accumulated: it
    raises only at the unbound name; it ends at a [break] with the
    responses of one successful attempt over the urls it started with; or
    it runs out of attempts holding the exception of the last one. *)
Lemma retry_loop_cases (its : list Z) :
  forall (st : retry_state) (w : World),
    total_responses st = [] ->
    match retry_loop method buffer_size timeout backoff_factor
                     status_forcelist headers its st w with
    | (Raise e, _) => e = NameError "handled_urls"
    | (Ok st', w') =>
        (its <> [] /\ total_ex st' = None
         /\ map url (total_responses st') = urls_to_perform st
         /\ exists w1, single (urls_to_perform st) w1
                       = (Ok (total_responses st'), w'))
        \/ (its = [] /\ st' = st /\ w' = w)
        \/ (its <> [] /\ total_responses st' = []
            /\ exists e w1 w2 b,
                 single (urls_to_perform st) w1 = (Raise e, w2)
                 /\ total_ex st' = Some e
                 /\ w' = slept b w2)
    end.
Proof.
  induction its as [|it rest IH]; intros st w Ht.
  - cbn. right. left. auto.
  - cbn [retry_loop]. unfold bind.
    pose proof (attempt_cases it st w Ht) as Ha.
    destruct (attempt method buffer_size timeout backoff_factor
                      status_forcelist headers it st w)
      as [[[st1 [|]]|e] w1]; cbn [fst snd].
    + destruct Ha as [Ht1 [Hu1 [e [w2 [He [Hx Hw]]]]]].
      specialize (IH st1 w1 Ht1).
      destruct (retry_loop method buffer_size timeout backoff_factor
                           status_forcelist headers rest st1 w1)
        as [[st'|e'] w']; [|exact IH].
      rewrite Hu1 in IH.
      destruct IH as [[Hn [Hx' [Hm Hw']]] | [[Hn [Hs Hw']] | [Hn [Ht' Hl]]]].
      * left. repeat split; auto. discriminate.
      * subst st' w'. right. right. repeat split; auto; [discriminate|].
        exists e, w, w2, (backoff st). auto.
      * right. right. repeat split; auto. discriminate.
    + destruct Ha as [Hx [Hm Hs]]. left. repeat split; auto; [discriminate|].
      exists w. exact Hs.
    + exact Ha.
Qed.

Lemma range_nil (n : Z) : range n = [] <-> n <= 0.
Proof.
  unfold range. split.
  - destruct (Z.to_nat n) eqn:E; [lia | discriminate].
  - intros H. replace (Z.to_nat n) with O by lia. reflexivity.
Qed.

End RetryFacts.

(** ** The retrying entry point *)

(** C2 at failing inputs.  (1) Two urls; the server sends the first
    response and closes.  The attempt raises the error that carries the
    response of the first url; the handler then reads the unbound name
    [handled_urls] and the entry point raises NameError: the second
    connection is never opened, so nothing is retried, and the response is
    not kept.  (2) The server answers 503 and 200 and 503 is in the
    forcelist: the same NameError. *)
Theorem retry_set_at_partial_results :
  let urls := ["http://x/a"; "http://x/b"] in
  let a200 := mkResponse 200 "OK" [] None "http://x/a" in
  let early_close := world_of [answers [status_only "200 OK"];
                               answers [status_only "200 OK"]] in
  let unavailable :=
    world_of [answers [status_only "503 Service Unavailable"
                         ++ status_only "200 OK"];
              answers [status_only "200 OK"]] in
  fst (http_pipelining urls "HEAD" 1024 2 [] early_close)
  = Raise (RuntimeError "data is not enough" [a200] None)
  /\ fst (http_pipelining_with_retries "HEAD" 1024 2 2 default_forcelist []
            urls 2 early_close)
     = Raise (NameError "handled_urls")
  /\ future (snd (http_pipelining_with_retries "HEAD" 1024 2 2
                    default_forcelist [] urls 2 early_close))
     = [answers [status_only "200 OK"]]
  /\ fst (http_pipelining_with_retries "HEAD" 1024 2 2 default_forcelist []
            urls 2 unavailable)
     = Raise (NameError "handled_urls").
Proof. cbv zeta. repeat split. Qed.






(** ** The target of the connection and the choice of TLS *)

Lemma span_digits_all (s : string) :
  all_digits (fst (Re.span_digits s)) = true.
Proof.
  induction s as [|c s IH]; cbn [Re.span_digits]; [reflexivity|].
  destruct (is_digit c) eqn:E; cbn [fst all_digits]; [|reflexivity].
  now rewrite E, IH.
Qed.

Lemma port_slash_shape (s p : string) :
  Re.port_slash s = Some p -> port_shape p.
Proof.
  destruct s as [|c s]; cbn [Re.port_slash]; [discriminate|].
  destruct (Ascii.eqb c ":").
  - pose proof (span_digits_all s) as Hd.
    destruct (Re.span_digits s) as [ds after].
    destruct ds as [|d ds]; [discriminate|].
    destruct after as [|c' after]; [discriminate|].
    destruct (Ascii.eqb c' "/"); [|discriminate].
    intros H. inversion H. right. exists (String d ds).
    repeat split; [discriminate | exact Hd].
  - destruct (Ascii.eqb c "/"); [|discriminate].
    intros H. inversion H. now left.
Qed.

Lemma host_port_shape (s h p : string) :
  Re.host_port s = Some (h, p) -> port_shape p.
Proof.
  revert h. induction s as [|c s IH]; intros h; cbn [Re.host_port].
  - destruct (Re.port_slash "") eqn:E; [|discriminate].
    intros H. inversion H. subst. eapply port_slash_shape; eassumption.
  - destruct (Re.port_slash (String c s)) eqn:E.
    + intros H. inversion H. subst. eapply port_slash_shape; eassumption.
    + destruct (Ascii.eqb c LF); [discriminate|].
      destruct (Re.host_port s) as [[h' p']|]; [|discriminate].
      intros H. inversion H. subst. eapply IH; reflexivity.
Qed.

Lemma match_at_shape (s protocol h p : string) :
  Re.match_at s = Some (protocol, h, p) -> port_shape p.
Proof.
  unfold Re.match_at.
  destruct (prefix "https://" s).
  - destruct (Re.host_port (drop 8 s)) as [[h' p']|] eqn:E; [|discriminate].
    intros H. inversion H. subst. eapply host_port_shape; eassumption.
  - destruct (prefix "http://" s); [|discriminate].
    destruct (Re.host_port (drop 7 s)) as [[h' p']|] eqn:E; [|discriminate].
    intros H. inversion H. subst. eapply host_port_shape; eassumption.
Qed.

Lemma findall_first_shape (s protocol h p : string) :
  Re.findall_first s = Some (protocol, h, p) -> port_shape p.
Proof.
  induction s as [|c s IH]; cbn [Re.findall_first].
  - destruct (Re.match_at "") as [g|] eqn:E; [|discriminate].
    intros H. inversion H. subst. eapply match_at_shape; eassumption.
  - destruct (Re.match_at (String c s)) as [g|] eqn:E; [|exact IH].
    intros H. inversion H. subst. eapply match_at_shape; eassumption.
Qed.

Lemma is_digit_not_space (c : ascii) : is_digit c = true -> is_space c = false.
Proof.
  unfold is_digit, is_space. intros H.
  apply andb_true_iff in H. destruct H as [H1 H2].
  apply Nat.leb_le in H1. apply Nat.leb_le in H2.
  apply orb_false_iff. split; apply andb_false_iff; right; apply Nat.leb_gt; lia.
Qed.

Lemma is_digit_not_sign (c : ascii) :
  is_digit c = true -> Ascii.eqb c "-" = false /\ Ascii.eqb c "+" = false.
Proof.
  intros H. split.
  - destruct (Ascii.eqb c "-") eqn:E; [|reflexivity].
    apply Ascii.eqb_eq in E. subst. discriminate.
  - destruct (Ascii.eqb c "+") eqn:E; [|reflexivity].
    apply Ascii.eqb_eq in E. subst. discriminate.
Qed.

Lemma rstrip_digits (s : string) : all_digits s = true -> rstrip s = s.
Proof.
  induction s as [|c s IH]; cbn [all_digits rstrip]; [reflexivity|].
  intros H. apply andb_true_iff in H. destruct H as [Hc Hs].
  now rewrite (is_digit_not_space c Hc), (IH Hs).
Qed.

Lemma digits_go_digits (s : string) :
  forall (acc : Z) (after_digit : bool),
    all_digits s = true -> s <> "" \/ after_digit = true ->
    exists n, digits_go acc after_digit s = Some n.
Proof.
  induction s as [|c s IH]; intros acc b Hd Hn; cbn [digits_go].
  - destruct Hn as [Hn | ->]; [contradiction | eauto].
  - cbn [all_digits] in Hd. apply andb_true_iff in Hd. destruct Hd as [Hc Hs].
    rewrite Hc. apply IH; auto.
Qed.

(** [int] accepts every non-empty text of digits. *)
Lemma int_digits (ds : string) :
  ds <> "" -> all_digits ds = true -> exists n, int ds = Some n.
Proof.
  intros Hn Hd. unfold int, strip.
  destruct ds as [|c d]; [contradiction|].
  pose proof Hd as Hd'. cbn [all_digits] in Hd'.
  apply andb_true_iff in Hd'. destruct Hd' as [Hc _].
  cbn [lstrip]. rewrite (is_digit_not_space c Hc), (rstrip_digits _ Hd).
  destruct (is_digit_not_sign c Hc) as [-> ->].
  apply digits_go_digits; [exact Hd | left; discriminate].
Qed.

Lemma slice_from_1 (c : ascii) (s : string) : slice_from (String c s) 1 = s.
Proof.
  unfold slice_from, clamp. cbn [String.length Z.ltb Z.compare].
  replace (Z.min 1 (Z.of_nat (S (String.length s)))) with 1 by lia.
  reflexivity.
Qed.




(** * Further properties of the code *)

(** ** Vocabulary: well-formed response messages *)

Fixpoint has_char (c : ascii) (s : string) : bool :=
  match s with
  | "" => false
  | String x s' => Ascii.eqb x c || has_char c s'
  end.

(** A response message as a server writes it: the three parts of the status
    line and the header fields, name and value. *)
Record Message := mkMessage {
  m_protocol : string;
  m_code : string;
  m_reason : string;
  m_headers : list (string * string)
}.

Definition status_line (m : Message) : string :=
  m_protocol m ++ " " ++ m_code m ++ " " ++ m_reason m.

Definition header_text (kv : string * string) : string :=
  fst kv ++ ":" ++ snd kv.

(** The lines [hs], each one preceded by [sub]. *)
Definition preceded (sub : string) (hs : list string) : string :=
  fold_right (fun h acc => sub ++ h ++ acc) "" hs.

(** Status line and header lines, CRLF between them. *)
Definition head_of (m : Message) : string :=
  status_line m ++ preceded sep (map header_text (m_headers m)).

(** The message on the wire, without a body. *)
Definition render (m : Message) : bytes := head_of m ++ data_sep.

(** The dict [prepare_headers] builds from the fields. *)
Definition headers_of (kvs : list (string * string)) : CaseInsensitiveDict :=
  fold_left (fun d kv => cid_setitem (strip (fst kv)) (strip (snd kv)) d) kvs [].

Definition code_of (m : Message) : Z :=
  match int (m_code m) with
  | Some n => n
  | None => 0
  end.

Definition response_of (m : Message) (u : string) : Response :=
  mkResponse (code_of m) (m_reason m) (headers_of (m_headers m)) None u.

(** Protocol and code hold no space, the code is an integer literal, no line
    holds a carriage return, no header name holds a colon, and the text is
    UTF-8. *)
Definition well_formed (m : Message) : Prop :=
  has_char " " (m_protocol m) = false
  /\ has_char " " (m_code m) = false
  /\ int (m_code m) <> None
  /\ has_char CR (status_line m) = false
  /\ Forall (fun kv => has_char ":" (fst kv) = false
                       /\ has_char CR (header_text kv) = false)
            (m_headers m)
  /\ utf8_valid (head_of m) = true.

(** The method is HEAD, or the message has no Content-Length field: the
    cases in which [get_response] expects no body. *)
Definition bodiless (method : string) (m : Message) : Prop :=
  method = "HEAD" \/ dict_get "content-length" (headers_of (m_headers m)) = None.

Definition plain_line (h : string) : Prop := h <> "" /\ has_char CR h = false.

(** The messages on the wire, one after the other. *)
Definition rendered (ms : list Message) : bytes :=
  fold_right (fun m acc => render m ++ acc) "" ms.

(** The responses of the messages, each with the url at its position. *)
Definition responses_of (ms : list Message) (urls : list string)
  : list Response :=
  map (fun mu => response_of (fst mu) (snd mu)) (combine ms urls).

Definition sample_ok : Message :=
  mkMessage "HTTP/1.1" "200" "OK" [("Server", " nginx"); ("X-Id", " 7")].

Definition sample_missing : Message :=
  mkMessage "HTTP/1.1" "404" "Not Found" [("Content-Length", " 0")].

(** ** Vocabulary: header dicts and exceptions *)

(** [CaseInsensitiveDict.__getitem__]: the key is lower-cased before the
    lookup; [None] stands for KeyError. *)
Definition cid_getitem (k : string) (d : CaseInsensitiveDict) : option string :=
  dict_get (lower k) d.

Definition lower_keys (d : CaseInsensitiveDict) : Prop :=
  Forall (fun kv => lower (fst kv) = fst kv) d.

Definition has_colon (h : string) : bool := has_char ":" h.

(** The exceptions of parsing one response: a failed unpacking or [int]
    (ValueError) and a failed [decode]. *)
Definition decoding_error (e : exn) : Prop :=
  match e with
  | ValueError _ | UnicodeDecodeError => True
  | _ => False
  end.

(** ** Vocabulary: sockets, urls and the retry loop *)

(** An event other than the creation and the closing of a socket. *)
Definition inner_event (ev : event) : Prop := ev <> EvSocket /\ ev <> EvClose.

(** A host as the pattern can give it back: no slash, no colon, no
    newline. *)
Definition plain_host (host : string) : Prop :=
  has_char "/" host = false /\ has_char ":" host = false
  /\ has_char LF host = false.

Definition scheme_of (secure : bool) : string :=
  if secure then "https" else "http".

(** The status of a response is in the forcelist. *)
Definition forced (status_forcelist : list Z) (r : Response) : bool :=
  existsb (Z.eqb (status_code r)) status_forcelist.

(** The delays of the sleeps that follow the attempts [its], the first
    delay being [b]: after attempt [it] the delay grows by
    [it * backoff_factor]. *)
Fixpoint delays (backoff_factor : Z) (its : list Z) (b : Z) : list Z :=
  match its with
  | [] => []
  | it :: rest => b :: delays backoff_factor rest (b + it * backoff_factor)
  end.

(** The effects of one refused connection. *)
Definition refused_events (host : string) (port : Z) : list event :=
  (EvSocket :: (if port =? 443 then [EvTlsWrap host] else [])
     ++ [EvConnect host port; EvClose])%list.

(** ** Searching and cutting texts *)

Lemma length_append (a b : string) :
  String.length (a ++ b) = (String.length a + String.length b)%nat.
Proof. induction a as [|x a IH]; cbn; [reflexivity | now rewrite IH]. Qed.

Lemma take_append (a b : string) : take (String.length a) (a ++ b) = a.
Proof. induction a as [|x a IH]; cbn; [now destruct b | now rewrite IH]. Qed.

Lemma drop_append (a b : string) : drop (String.length a) (a ++ b) = b.
Proof. induction a as [|x a IH]; cbn; [reflexivity | exact IH]. Qed.

Lemma prefix_append_same (p r : string) : prefix p (p ++ r) = true.
Proof.
  induction p as [|x p IH]; cbn.
  - now destruct r.
  - destruct (ascii_dec x x); [exact IH | contradiction].
Qed.

Lemma prefix_first_differs (x c : ascii) (p s : string) :
  Ascii.eqb c x = false -> prefix (String x p) (String c s) = false.
Proof.
  intros H. cbn. destruct (ascii_dec x c) as [->|]; [|reflexivity].
  now rewrite Ascii.eqb_refl in H.
Qed.

Lemma prefix_nonempty_nil (x : ascii) (p : string) : prefix (String x p) "" = false.
Proof. reflexivity. Qed.

Lemma slice_prefix (a b : string) :
  slice (a ++ b) 0 (Z.of_nat (String.length a)) = a.
Proof.
  unfold slice, clamp. rewrite length_append.
  change (0 <? 0) with false. cbv iota.
  destruct (Z.of_nat (String.length a) <? 0) eqn:E;
    [apply Z.ltb_lt in E; lia|].
  replace (Z.min 0 _) with 0 by lia.
  replace (Z.min (Z.of_nat (String.length a)) _)
    with (Z.of_nat (String.length a)) by lia.
  rewrite Z.sub_0_r, Nat2Z.id. cbn [Z.to_nat drop]. apply take_append.
Qed.

Lemma slice_from_suffix (a b : string) (k : Z) :
  k = Z.of_nat (String.length a) -> slice_from (a ++ b) k = b.
Proof.
  intros ->. unfold slice_from, clamp. rewrite length_append.
  destruct (Z.of_nat (String.length a) <? 0) eqn:E;
    [apply Z.ltb_lt in E; lia|].
  replace (Z.min (Z.of_nat (String.length a)) _)
    with (Z.of_nat (String.length a)) by lia.
  rewrite Nat2Z.id. apply drop_append.
Qed.

Section Separator.

(** A separator [String x p] and texts in which [x] does not occur. *)
Variable x : ascii.
Variable p : string.

Let sub : string := String x p.

Lemma find_nat_skip (l rest : string) :
  has_char x l = false ->
  find_nat sub (l ++ rest)
  = option_map (Nat.add (String.length l)) (find_nat sub rest).
Proof.
  induction l as [|c l IH]; intros H.
  - cbn [append String.length]. destruct (find_nat sub rest); reflexivity.
  - cbn [has_char] in H. apply orb_false_iff in H. destruct H as [Hc Hl].
    cbn [append find_nat]. unfold sub at 1.
    rewrite (prefix_first_differs x c p _ Hc), (IH Hl).
    destruct (find_nat sub rest); reflexivity.
Qed.

Lemma partition_first (l r : string) :
  has_char x l = false -> partition sub (l ++ sub ++ r) = Some (l, r).
Proof.
  induction l as [|c l IH]; intros H.
  - change ("" ++ sub ++ r) with (String x (p ++ r)). cbn [partition].
    change (String x (p ++ r)) with (sub ++ r).
    now rewrite prefix_append_same, drop_append.
  - cbn [has_char] in H. apply orb_false_iff in H. destruct H as [Hc Hl].
    cbn [append partition]. unfold sub at 1.
    rewrite (prefix_first_differs x c p _ Hc), (IH Hl). reflexivity.
Qed.

Lemma partition_absent (s : string) :
  has_char x s = false -> partition sub s = None.
Proof.
  induction s as [|c s IH]; intros H.
  - reflexivity.
  - cbn [has_char] in H. apply orb_false_iff in H. destruct H as [Hc Hs].
    cbn [partition]. unfold sub at 1.
    now rewrite (prefix_first_differs x c p _ Hc), (IH Hs).
Qed.

Lemma partition_present (s : string) :
  p = "" -> has_char x s = true -> partition sub s <> None.
Proof.
  intros Hp. unfold sub. subst p.
  induction s as [|c s IH]; intros H; [discriminate|].
  cbn [partition prefix].
  destruct (ascii_dec x c) as [->|Hn].
  - destruct s; discriminate.
  - cbn [has_char] in H. apply orb_true_iff in H. destruct H as [H|H].
    + apply Ascii.eqb_eq in H. congruence.
    + specialize (IH H). destruct (partition (String x "") s) as [[l r]|];
        [discriminate | contradiction].
Qed.

(** Splitting the lines back out of a text built with the separator. *)
Lemma splitn_preceded (ls : list string) :
  forall (l0 : string) (n : nat),
    (List.length ls <= n)%nat ->
    has_char x l0 = false ->
    Forall (fun h => has_char x h = false) ls ->
    splitn sub n (l0 ++ preceded sub ls) = l0 :: ls.
Proof.
  induction ls as [|h t IH]; intros l0 n Hn H0 Hall.
  - cbn [preceded fold_right]. rewrite append_nil_r.
    destruct n; cbn [splitn]; [reflexivity|].
    now rewrite (partition_absent l0 H0).
  - destruct n as [|n]; [cbn in Hn; lia|].
    inversion Hall as [|? ? Hh Ht]; subst.
    cbn [preceded fold_right splitn].
    rewrite (partition_first l0 _ H0).
    f_equal. apply IH; auto. cbn in Hn. lia.
Qed.

Lemma length_preceded (ls : list string) :
  (List.length ls <= String.length (preceded sub ls))%nat.
Proof.
  induction ls as [|h t IH]; cbn [preceded fold_right List.length]; [cbn; lia|].
  fold (preceded sub t). rewrite !length_append. unfold sub at 1.
  cbn [String.length]. lia.
Qed.

End Separator.

(** ** The framer on well-formed messages *)

Lemma has_char_cons_false (c x : ascii) (s : string) :
  has_char x (String c s) = false ->
  Ascii.eqb c x = false /\ has_char x s = false.
Proof. cbn [has_char]. apply orb_false_iff. Qed.

Lemma find_nat_here (sub r : string) : find_nat sub (sub ++ r) = Some O.
Proof.
  destruct (sub ++ r) eqn:E; cbn [find_nat];
    now rewrite <- E, prefix_append_same.
Qed.

Lemma find_nat_cons (sub : string) (c : ascii) (s : string) :
  find_nat sub (String c s)
  = if prefix sub (String c s) then Some O else option_map S (find_nat sub s).
Proof. reflexivity. Qed.

Lemma find_nat_after_sep (c : ascii) (rest : string) :
  Ascii.eqb c CR = false ->
  find_nat data_sep (sep ++ String c rest)
  = option_map (Nat.add 2) (find_nat data_sep (String c rest)).
Proof.
  intros H.
  assert (Hc : CR <> c) by (intros <-; now rewrite Ascii.eqb_refl in H).
  change (sep ++ String c rest) with (String CR (String LF (String c rest))).
  rewrite !(find_nat_cons data_sep _ (String _ _)).
  assert (P1 : prefix data_sep (String CR (String LF (String c rest))) = false).
  { change data_sep with (String CR (String LF (String CR (String LF "")))).
    cbn [prefix].
    destruct (ascii_dec CR CR) as [_|N]; [|contradiction].
    destruct (ascii_dec LF LF) as [_|N]; [|contradiction].
    destruct (ascii_dec CR c) as [E|_]; [contradiction | reflexivity]. }
  assert (P2 : prefix data_sep (String LF (String c rest)) = false)
    by (apply prefix_first_differs; reflexivity).
  rewrite P1, P2.
  destruct (find_nat data_sep (String c rest)); reflexivity.
Qed.

Lemma find_nat_lines (hs : list string) (rest : string) :
  Forall plain_line hs ->
  find_nat data_sep (preceded sep hs ++ data_sep ++ rest)
  = Some (String.length (preceded sep hs)).
Proof.
  induction hs as [|h t IH]; intros Hall.
  - change (preceded sep [] ++ data_sep ++ rest) with (data_sep ++ rest).
    apply find_nat_here.
  - inversion Hall as [|? ? [Hne Hcr] Ht]; subst.
    cbn [preceded fold_right]. fold (preceded sep t).
    rewrite !append_assoc.
    destruct h as [|c h]; [contradiction|].
    destruct (has_char_cons_false _ _ _ Hcr) as [Hc _].
    change (String c h ++ preceded sep t ++ data_sep ++ rest)
      with (String c (h ++ preceded sep t ++ data_sep ++ rest)).
    rewrite (find_nat_after_sep c _ Hc).
    change (String c (h ++ preceded sep t ++ data_sep ++ rest))
      with (String c h ++ preceded sep t ++ data_sep ++ rest).
    change data_sep with (String CR (String LF sep)) at 1.
    rewrite (find_nat_skip CR (String LF sep) (String c h) _ Hcr).
    change (String CR (String LF sep)) with data_sep.
    rewrite (IH Ht). cbn [option_map]. rewrite !length_append.
    reflexivity.
Qed.

Lemma header_text_plain (kv : string * string) :
  has_char CR (header_text kv) = false -> plain_line (header_text kv).
Proof.
  intros H. split; [|exact H]. unfold header_text.
  apply append_nonempty_r. discriminate.
Qed.

Lemma prepare_headers_from_fields (kvs : list (string * string)) :
  forall hs : CaseInsensitiveDict,
    Forall (fun kv => has_char ":" (fst kv) = false) kvs ->
    prepare_headers_from (map header_text kvs) hs
    = Ok (fold_left
            (fun d kv => cid_setitem (strip (fst kv)) (strip (snd kv)) d)
            kvs hs).
Proof.
  induction kvs as [|kv t IH]; intros hs Hall; [reflexivity|].
  inversion Hall as [|? ? Hk Ht]; subst.
  cbn [map prepare_headers_from splitn fold_left]. unfold header_text at 1.
  rewrite (partition_first ":" "" (fst kv) (snd kv) Hk).
  apply IH, Ht.
Qed.

Section WellFormed.

Variable method : string.
Variable m : Message.
Hypothesis Hwf : well_formed m.
Hypothesis Hbody : bodiless method m.

Lemma head_find (rest : bytes) :
  find data_sep (render m ++ rest) = Z.of_nat (String.length (head_of m)).
Proof.
  destruct Hwf as [_ [_ [_ [Hcr [Hh _]]]]].
  unfold find, render, head_of. rewrite !append_assoc.
  change data_sep with (String CR (String LF sep)) at 1.
  rewrite (find_nat_skip CR (String LF sep) (status_line m) _ Hcr).
  change (String CR (String LF sep)) with data_sep.
  rewrite find_nat_lines.
  - cbn [option_map]. now rewrite length_append.
  - apply Forall_forall. intros h Hin. apply in_map_iff in Hin.
    destruct Hin as [kv [<- Hin]]. apply header_text_plain.
    rewrite Forall_forall in Hh. apply (Hh kv Hin).
Qed.

Lemma head_split :
  split sep (head_of m) = status_line m :: map header_text (m_headers m).
Proof.
  destruct Hwf as [_ [_ [_ [Hcr [Hh _]]]]].
  unfold split, head_of. apply (splitn_preceded CR (String LF "")); auto.
  - rewrite length_append.
    pose proof (length_preceded CR (String LF "")
                  (map header_text (m_headers m))) as L.
    fold sep in L. lia.
  - apply Forall_forall. intros h Hin. apply in_map_iff in Hin.
    destruct Hin as [kv [<- Hin]].
    rewrite Forall_forall in Hh. apply (Hh kv Hin).
Qed.

Lemma status_line_split :
  splitn " " 2 (status_line m) = [m_protocol m; m_code m; m_reason m].
Proof.
  destruct Hwf as [Hp [Hc _]]. unfold status_line. cbn [splitn].
  rewrite (partition_first " " "" (m_protocol m) _ Hp).
  now rewrite (partition_first " " "" (m_code m) _ Hc).
Qed.

(** One well-formed message at the head of the buffer: the response holds
    the status code, the reason and the header fields of the message, no
    body, and what follows the message is left for the next response. *)
Lemma get_response_rendered (rest : bytes) (u : string) :
  get_response method (render m ++ rest) u = Ok (response_of m u, rest).
Proof.
  unfold get_response. rewrite head_find.
  unfold render at 1. rewrite append_assoc, slice_prefix.
  destruct Hwf as [_ [_ [Hi [_ [Hh Hu]]]]].
  unfold decode. rewrite Hu. cbn [obind].
  rewrite head_split, status_line_split.
  unfold int_or_raise at 1, response_of, code_of.
  destruct (int (m_code m)) as [n|]; [|contradiction]. cbn [obind].
  unfold prepare_headers. rewrite prepare_headers_from_fields.
  2:{ apply Forall_forall. intros kv Hin. rewrite Forall_forall in Hh.
      apply (Hh kv Hin). }
  cbn [obind]. fold (headers_of (m_headers m)).
  assert (Ho : (if (method =? "HEAD")%string then Ok 0
                else match dict_get "content-length" (headers_of (m_headers m)) with
                     | Some v => int_or_raise v
                     | None => Ok 0
                     end) = Ok 0).
  { destruct Hbody as [-> | ->]; [reflexivity|].
    now destruct (method =? "HEAD")%string. }
  rewrite Ho. cbn [obind Z.eqb]. f_equal. f_equal.
  unfold render. apply slice_from_suffix.
  rewrite length_append. change (String.length data_sep) with 4%nat. lia.
Qed.

End WellFormed.

(** ** Round trips of the framer *)


Lemma render_nonempty (m : Message) (rest : string) : render m ++ rest <> "".
Proof.
  unfold render. rewrite append_assoc. apply append_nonempty_r. discriminate.
Qed.

Lemma parse_loop_rendered (method : string) (ms : list Message) :
  forall (urls : list string) (junk : bytes) (prepared : list Response),
    List.length ms = List.length urls ->
    Forall well_formed ms -> Forall (bodiless method) ms ->
    parse_loop method urls (rendered ms ++ junk) prepared
    = Ok (prepared ++ responses_of ms urls)%list.
Proof.
  induction ms as [|m ms IH]; intros urls junk prepared Hl Hw Hb;
    destruct urls as [|u us]; try discriminate.
  - cbn. now rewrite app_nil_r.
  - inversion Hw as [|? ? Hwm Hws]; inversion Hb as [|? ? Hbm Hbs]; subst.
    cbn [rendered fold_right parse_loop]. fold (rendered ms).
    rewrite append_assoc, (get_response_rendered method m Hwm Hbm).
    cbn [obind fst snd].
    destruct (rendered ms ++ junk =? "")%string eqn:E.
    + apply String.eqb_eq in E.
      destruct ms as [|m' ms].
      * destruct us; [reflexivity | discriminate].
      * cbn [rendered fold_right] in E. rewrite append_assoc in E.
        now apply render_nonempty in E.
    + rewrite IH; auto. now rewrite <- app_assoc.
Qed.

Lemma responses_of_length (ms : list Message) (urls : list string) :
  List.length ms = List.length urls ->
  List.length (responses_of ms urls) = List.length urls.
Proof.
  intros H. unfold responses_of. rewrite length_map, length_combine. lia.
Qed.

Lemma parse_response_rendered :
  forall (method : string) (ms : list Message) (urls : list string)
         (junk : bytes),
    List.length ms = List.length urls ->
    Forall well_formed ms -> Forall (bodiless method) ms ->
    parse_response urls method (rendered ms ++ junk)
    = Ok (responses_of ms urls).
Proof.
  intros method ms urls junk Hl Hw Hb. unfold parse_response.
  rewrite (parse_loop_rendered method ms urls junk [] Hl Hw Hb).
  cbn [obind app]. rewrite (responses_of_length ms urls Hl), Nat.eqb_refl.
  reflexivity.
Qed.


Lemma sample_ok_well_formed : well_formed sample_ok.
Proof.
  unfold well_formed. repeat split; try reflexivity; try discriminate.
  repeat constructor.
Qed.

Lemma sample_missing_well_formed : well_formed sample_missing.
Proof.
  unfold well_formed. repeat split; try reflexivity; try discriminate.
  repeat constructor.
Qed.



(** ** The header dict *)

Lemma lower_char_idempotent (c : ascii) : lower_char (lower_char c) = lower_char c.
Proof. destruct c as [[] [] [] [] [] [] [] []]; reflexivity. Qed.

Lemma lower_idempotent (s : string) : lower (lower s) = lower s.
Proof.
  unfold lower. induction s as [|c s IH]; cbn [map_chars]; [reflexivity|].
  now rewrite lower_char_idempotent, IH.
Qed.

Lemma dict_get_setitem (q k v : string) (d : list (string * string)) :
  dict_get q (dict_setitem k v d)
  = if (k =? q)%string then Some v else dict_get q d.
Proof.
  induction d as [|[k' v'] d IH]; cbn [dict_setitem dict_get].
  - reflexivity.
  - destruct (k' =? k)%string eqn:E; cbn [dict_get].
    + apply String.eqb_eq in E. subst k'. now destruct (k =? q)%string.
    + rewrite IH. destruct (k' =? q)%string eqn:E'; [|reflexivity].
      apply String.eqb_eq in E'. subst k'. now rewrite String.eqb_sym, E.
Qed.

Lemma In_keys_setitem (q k v : string) (d : list (string * string)) :
  In q (map fst (dict_setitem k v d)) <-> q = k \/ In q (map fst d).
Proof.
  induction d as [|[k' v'] d IH]; cbn [dict_setitem map fst In].
  - intuition.
  - destruct (k' =? k)%string eqn:E; cbn [map fst In].
    + apply String.eqb_eq in E. subst k'. intuition.
    + rewrite IH. intuition.
Qed.

Lemma NoDup_keys_setitem (k v : string) (d : list (string * string)) :
  NoDup (map fst d) -> NoDup (map fst (dict_setitem k v d)).
Proof.
  induction d as [|[k' v'] d IH]; cbn [dict_setitem map fst]; intros H.
  - constructor; [intros [] | constructor].
  - inversion H as [|? ? Hn Hd]; subst.
    destruct (k' =? k)%string eqn:E; cbn [map fst].
    + apply String.eqb_eq in E. subst k'. now constructor.
    + apply String.eqb_neq in E. constructor; [|now apply IH].
      rewrite In_keys_setitem. intros [Hk | Hk]; [congruence | contradiction].
Qed.

Lemma lower_keys_setitem (k v : string) (d : CaseInsensitiveDict) :
  lower_keys d -> lower_keys (cid_setitem k v d).
Proof.
  unfold lower_keys, cid_setitem.
  induction d as [|[k' v'] d IH]; cbn [dict_setitem]; intros H.
  - constructor; [apply lower_idempotent | constructor].
  - inversion H as [|? ? Hk Hd]; subst.
    destruct (k' =? lower k)%string.
    + constructor; [apply lower_idempotent | exact Hd].
    + constructor; [exact Hk | now apply IH].
Qed.

Lemma prepare_headers_from_invariant (raw_headers : list string) :
  forall hs hs' : CaseInsensitiveDict,
    prepare_headers_from raw_headers hs = Ok hs' ->
    lower_keys hs /\ NoDup (map fst hs) ->
    lower_keys hs' /\ NoDup (map fst hs').
Proof.
  induction raw_headers as [|h rest IH]; intros hs hs'; cbn [prepare_headers_from].
  - intros H. now inversion H.
  - destruct (splitn ":" 1 h) as [|l [|r [|x t]]]; try discriminate.
    intros H [Hl Hn]. apply (IH _ _ H). split.
    + now apply lower_keys_setitem.
    + now apply NoDup_keys_setitem.
Qed.

Lemma get_response_headers (method : string) (raw : bytes) (u : string)
      (resp : Response) (rest : bytes) :
  get_response method raw u = Ok (resp, rest) ->
  exists raw_headers, prepare_headers raw_headers = Ok (headers resp).
Proof.
  unfold get_response, obind. intros H. split_matches H.
  all: inversion H; subst; cbn [headers]; eauto.
Qed.

(** X3.  The header names of every response the framer returns are
    lower-case and pairwise distinct, whatever the bytes on the wire. *)
Theorem response_header_names :
  forall (method : string) (raw : bytes) (u : string) (resp : Response)
         (rest : bytes),
    get_response method raw u = Ok (resp, rest) ->
    lower_keys (headers resp) /\ NoDup (map fst (headers resp)).
Proof.
  intros method raw u resp rest H.
  destruct (get_response_headers _ _ _ _ _ H) as [raw_headers Hp].
  apply (prepare_headers_from_invariant raw_headers [] _ Hp).
  split; constructor.
Qed.

Lemma response_header_names_witness :
  lower_keys (headers (response_of sample_ok "http://x/a"))
  /\ NoDup (map fst (headers (response_of sample_ok "http://x/a"))).
Proof.
  apply (response_header_names "GET" (render sample_ok ++ "tail") "http://x/a"
           (response_of sample_ok "http://x/a") "tail").
  reflexivity.
Defined.


(** X5.  [prepare_headers] succeeds when every header line holds a colon,
    and raises the ValueError of the failed unpacking as soon as one line
    holds none. *)
Theorem prepare_headers_colon :
  forall raw_headers : list string,
    (Forall (fun h => has_colon h = true) raw_headers ->
     exists hs, prepare_headers raw_headers = Ok hs)
    /\ (forall h, In h raw_headers -> has_colon h = false ->
          prepare_headers raw_headers
          = Raise (ValueError "not enough values to unpack")).
Proof.
  intros raw_headers. unfold prepare_headers, has_colon. generalize (@nil (string * string)).
  induction raw_headers as [|h0 rest IH]; intros hs; split.
  - intros _. now exists hs.
  - intros h [].
  - intros Hall. inversion Hall as [|? ? Hc Hr]; subst.
    cbn [prepare_headers_from splitn].
    pose proof (partition_present ":" "" h0 eq_refl Hc) as Hp.
    destruct (partition ":" h0) as [[l r]|]; [|contradiction].
    apply (IH _), Hr.
  - intros h Hin Hc. cbn [prepare_headers_from splitn].
    destruct (partition ":" h0) as [[l r]|] eqn:P; [|reflexivity].
    destruct Hin as [-> | Hin].
    + rewrite (partition_absent ":" "" h Hc) in P. discriminate.
    + apply (IH _) with (h := h); assumption.
Qed.

(** X6.  A response has no body, and the bytes handed to the next
    response start right after the separator (or at index 3 when there is no
    separator), whenever the method is HEAD or the response has no
    [content-length] field. *)
Theorem get_response_without_body :
  forall (method : string) (raw : bytes) (u : string) (resp : Response)
         (rest : bytes),
    get_response method raw u = Ok (resp, rest) ->
    method = "HEAD" \/ dict_get "content-length" (headers resp) = None ->
    _content resp = None
    /\ rest = slice_from raw (find data_sep raw + 4).
Proof.
  intros method raw u resp rest H Hb.
  unfold get_response, obind in H. split_matches H.
  all: inversion H; subst; clear H; cbn [headers _content] in *.
  all: change (Z.of_nat (String.length data_sep)) with 4.
  all: repeat match goal with
              | E : (_ =? _)%string = true |- _ => apply String.eqb_eq in E
              | E : (_ =? _)%string = false |- _ => apply String.eqb_neq in E
              | E : (_ =? _) = true |- _ => apply Z.eqb_eq in E
              end.
  all: repeat match goal with
              | E : Ok _ = Ok _ |- _ => inversion E; subst; clear E
              | E : match ?x with _ => _ end = Ok _ |- _ =>
                  destruct x eqn:?; try discriminate
              end.
  all: try (subst; rewrite ?Z.add_0_r; now split).
  all: destruct Hb as [Hb | Hb];
    first [congruence | rewrite Hb in *; discriminate].
Qed.

Lemma get_response_without_body_witness :
  _content (response_of sample_missing "http://x/a") = None
  /\ "tail" = slice_from (render sample_missing ++ "tail")
                         (find data_sep (render sample_missing ++ "tail") + 4).
Proof.
  apply (get_response_without_body "HEAD" (render sample_missing ++ "tail")
           "http://x/a" (response_of sample_missing "http://x/a") "tail").
  - reflexivity.
  - left. reflexivity.
Defined.

(** ** What the framer raises *)

Lemma prepare_headers_from_decoding (raw_headers : list string)
      (hs : CaseInsensitiveDict) (e : exn) :
  prepare_headers_from raw_headers hs = Raise e -> decoding_error e.
Proof.
  revert hs. induction raw_headers as [|h rest IH]; intros hs;
    cbn [prepare_headers_from].
  - discriminate.
  - intros H. split_matches H; try (inversion H; exact I).
    eapply IH; eassumption.
Qed.

Lemma int_or_raise_decoding (s : string) (e : exn) :
  int_or_raise s = Raise e -> decoding_error e.
Proof. unfold int_or_raise. destruct (int s); intros H; inversion H. exact I. Qed.

Lemma get_response_decoding (method : string) (raw : bytes) (u : string)
      (e : exn) :
  get_response method raw u = Raise e -> decoding_error e.
Proof.
  unfold get_response, decode, prepare_headers, obind. intros H.
  split_matches H.
  all: inversion H; subst; clear H; try exact I.
  all: repeat match goal with
              | H : (if ?x then _ else _) = Raise _ |- _ =>
                  destruct x; try discriminate
              | H : match ?x with _ => _ end = Raise _ |- _ =>
                  destruct x; try discriminate
              end.
  all: eauto using int_or_raise_decoding, prepare_headers_from_decoding.
  match goal with H : Raise _ = Raise _ |- _ => inversion H end. exact I.
Qed.

Lemma parse_loop_decoding (method : string) (us : list string) :
  forall (content : bytes) (prepared : list Response) (e : exn),
    parse_loop method us content prepared = Raise e -> decoding_error e.
Proof.
  induction us as [|u us IH]; intros content prepared e; cbn [parse_loop].
  - discriminate.
  - unfold obind.
    destruct (get_response method content u) as [[resp rest]|e'] eqn:G.
    + cbn [fst snd]. destruct (rest =? "")%string; [discriminate | apply IH].
    + intros H. inversion H. subst. eapply get_response_decoding; eassumption.
Qed.

Lemma parse_loop_shape (method : string) (us : list string) :
  forall (content : bytes) (prepared rs : list Response),
    parse_loop method us content prepared = Ok rs ->
    exists rs', rs = (prepared ++ rs')%list
                /\ map url rs' = firstn (List.length rs') us
                /\ (List.length rs' <= List.length us)%nat
                /\ (us <> [] -> rs' <> []).
Proof.
  induction us as [|u us IH]; intros content prepared rs; cbn [parse_loop].
  - intros H. inversion H. exists []. rewrite app_nil_r. repeat split; auto.
  - unfold obind.
    destruct (get_response method content u) as [[resp rest]|e] eqn:G;
      [|discriminate].
    apply get_response_url in G. cbn [fst snd].
    destruct (rest =? "")%string.
    + intros H. inversion H. exists [resp]. cbn. rewrite G.
      repeat split; auto; [lia | discriminate].
    + intros H. apply IH in H. destruct H as [rs' [-> [Hm [Hl _]]]].
      exists (resp :: rs'). rewrite <- app_assoc. cbn. rewrite G, Hm.
      repeat split; auto; [lia | discriminate].
Qed.

(** X7.  What [parse_response] raises is either the error of parsing one
    response (ValueError, UnicodeDecodeError), or the RuntimeError [data is
    not enough]; the latter carries at least one response and fewer than
    there are urls, and its responses belong, in order, to the first urls. *)
Theorem parse_response_errors :
  forall (urls : list string) (method : string) (content : bytes) (e : exn),
    parse_response urls method content = Raise e ->
    decoding_error e
    \/ exists ready,
         e = RuntimeError "data is not enough" ready None
         /\ ready <> []
         /\ (List.length ready < List.length urls)%nat
         /\ map url ready = firstn (List.length ready) urls.
Proof.
  intros urls method content e. unfold parse_response, obind.
  destruct (parse_loop method urls content []) as [prepared|e'] eqn:L.
  - destruct (List.length prepared =? List.length urls)%nat eqn:E;
      [discriminate|].
    apply Nat.eqb_neq in E. intros H. inversion H. subst e. right.
    apply parse_loop_shape in L. destruct L as [rs' [-> [Hm [Hl Hne]]]].
    cbn [app] in *. exists rs'. repeat split; auto; [|lia].
    apply Hne. intros ->. destruct rs'; [now apply E | cbn in Hl; lia].
  - intros H. inversion H. subst. left.
    eapply parse_loop_decoding; eassumption.
Qed.

Lemma parse_response_errors_witness :
  decoding_error
    (RuntimeError "data is not enough" [response_of sample_ok "http://x/a"] None)
  \/ exists ready,
       RuntimeError "data is not enough" [response_of sample_ok "http://x/a"]
                    None
       = RuntimeError "data is not enough" ready None
       /\ ready <> []
       /\ (List.length ready < List.length ["http://x/a"; "http://x/b"])%nat
       /\ map url ready
          = firstn (List.length ready) ["http://x/a"; "http://x/b"].
Proof.
  apply (parse_response_errors ["http://x/a"; "http://x/b"] "HEAD"
           (render sample_ok)).
  reflexivity.
Defined.

(** ** The life of the socket *)

Ltac inner_step :=
  first [ apply appends_ret | apply appends_lift
        | apply appends_emit; split; discriminate
        | apply appends_recvall; split; discriminate
        | apply (appends_raise_if on_connect)
        | apply (appends_raise_if on_sendall)
        | apply (appends_raise_if on_shutdown)
        | apply appends_bind; [|intros ?] ].

Lemma finally_close_trace {A} (body : M A) (w : World) :
  trace (snd (finally body sock_close w))
  = (trace (snd (body w)) ++ [EvClose])%list
  /\ fst (finally body sock_close w) = fst (body w).
Proof. unfold finally, sock_close, emit. destruct (body w). now cbn. Qed.


Lemma perform_refused :
  forall (urls : list string) (host : string) (port : Z) (method : string)
         (buffer_size : Z) (use_ssl connection_keep_alive : bool)
         (input_headers : list (string * string)) (w : World)
         (s : sock_script) (ss : list sock_script) (msg : string),
    future w = s :: ss -> on_connect s = Some msg ->
    perform urls host port method buffer_size use_ssl connection_keep_alive
            input_headers w
    = (Raise (OSError msg),
       mkWorld ss s
         (trace w ++ EvSocket
            :: (if use_ssl || (port =? 443) then [EvTlsWrap host] else [])
            ++ [EvConnect host port; EvClose])%list).
Proof.
  intros urls host port method buffer_size use_ssl keep hs w s ss msg Hf Hc.
  unfold perform, read_response_ssl, read_response, read_response_sock,
    sock_connect, sock_close, finally, bind, socket_socket, emit, raise_if,
    raise.
  destruct (use_ssl || (port =? 443)); rewrite Hf; cbn [sock future trace];
    rewrite Hc; cbn [sock future trace]; rewrite <- !app_assoc; reflexivity.
Qed.



(** ** The single-shot entry point, end to end *)

Lemma http_pipelining_target (u : string) (rest : list string)
      (method : string) (buffer_size timeout : Z)
      (headers : list (string * string)) (w : World)
      (protocol host port : string) :
  Re.findall_first u = Some (protocol, host, port) ->
  http_pipelining (u :: rest) method buffer_size timeout headers w
  = perform (u :: rest) host (effective_port protocol port) method buffer_size
            false false headers w.
Proof.
  intros Hm. unfold http_pipelining. rewrite Hm.
  assert (Hp : (if (port =? "")%string then Ok 0
                else if (slice_from port 1 =? "")%string then Ok 0
                     else int_or_raise (slice_from port 1))
               = Ok (explicit_port port)).
  { unfold explicit_port, int_or_raise.
    destruct (findall_first_shape _ _ _ _ Hm) as [-> | [ds [-> [Hn Hd]]]];
      [reflexivity|].
    rewrite slice_from_1.
    destruct (String ":" ds =? "")%string eqn:E0;
      [apply String.eqb_eq in E0; discriminate|].
    destruct (ds =? "")%string eqn:E1;
      [apply String.eqb_eq in E1; contradiction|].
    destruct (int_digits ds Hn Hd) as [n ->]. reflexivity. }
  unfold bind, lift. cbv zeta. rewrite Hp. reflexivity.
Qed.

Lemma recvall_one_packet (data : bytes) (n : nat) :
  data <> "" -> n <> O ->
  exists calls, (1 <= calls <= 2)%nat
                /\ recvall_from [RecvBytes data] n "" = (data, [], calls).
Proof.
  intros Hd Hn. cbn [recvall_from].
  change (count data_sep "") with O.
  destruct n as [|n]; [contradiction|]. cbn [Nat.eqb].
  destruct (data =? "")%string eqn:E;
    [apply String.eqb_eq in E; contradiction|].
  change ("" ++ data) with data.
  destruct (count data_sep data =? S n)%nat.
  - exists 1%nat. split; [lia | reflexivity].
  - exists 2%nat. split; [lia | reflexivity].
Qed.

Lemma rendered_nonempty (ms : list Message) : ms <> [] -> rendered ms <> "".
Proof.
  destruct ms as [|m ms]; [contradiction|]. intros _.
  cbn [rendered fold_right]. apply render_nonempty.
Qed.





(** ** The target of a url *)

Lemma span_digits_append (ds : string) (c : ascii) (t : string) :
  all_digits ds = true -> is_digit c = false ->
  Re.span_digits (ds ++ String c t) = (ds, String c t).
Proof.
  intros Hd Hc. induction ds as [|d ds IH].
  - cbn [append Re.span_digits]. now rewrite Hc.
  - cbn [all_digits] in Hd. apply andb_true_iff in Hd. destruct Hd as [H1 H2].
    cbn [append Re.span_digits]. rewrite H1, (IH H2). reflexivity.
Qed.

Lemma port_slash_explicit (ds path : string) :
  ds <> "" -> all_digits ds = true ->
  Re.port_slash (":" ++ ds ++ "/" ++ path) = Some (String ":" ds).
Proof.
  intros Hn Hd. change (":" ++ ds ++ "/" ++ path)
    with (String ":" (ds ++ String "/" path)).
  cbn [Re.port_slash]. change (Ascii.eqb ":" ":") with true. cbv iota.
  rewrite (span_digits_append ds "/" path Hd eq_refl).
  destruct ds as [|d ds]; [contradiction | reflexivity].
Qed.

Lemma host_port_plain (host tail p : string) :
  plain_host host -> Re.port_slash tail = Some p ->
  Re.host_port (host ++ tail) = Some (host, p).
Proof.
  intros [Hs [Hc Hl]] Hp. induction host as [|c host IH].
  - cbn [append]. destruct tail as [|x t]; [discriminate|].
    cbn [Re.host_port]. now rewrite Hp.
  - destruct (has_char_cons_false _ _ _ Hs) as [Hs1 Hs2].
    destruct (has_char_cons_false _ _ _ Hc) as [Hc1 Hc2].
    destruct (has_char_cons_false _ _ _ Hl) as [Hl1 Hl2].
    cbn [append Re.host_port Re.port_slash].
    rewrite Hc1, Hs1, Hl1, (IH Hs2 Hc2 Hl2). reflexivity.
Qed.

Lemma findall_first_here (s : string) (g : string * string * string) :
  Re.match_at s = Some g -> Re.findall_first s = Some g.
Proof. intros H. destruct s; cbn [Re.findall_first]; now rewrite H. Qed.

Lemma match_at_scheme (secure : bool) (x : string) (hp : string * string) :
  Re.host_port x = Some hp ->
  Re.match_at (scheme_of secure ++ "://" ++ x)
  = Some (scheme_of secure, fst hp, snd hp).
Proof.
  intros H.
  assert (P0 : prefix "" x = true) by (destruct x; reflexivity).
  destruct secure; cbn; unfold Re.match_at; cbn; now rewrite P0, H.
Qed.

(** X12.  The pattern gives back the parts of a url built from them: for a
    host without slash, colon and newline, the url [scheme://host/path]
    yields the scheme, the host and no port, and the url
    [scheme://host:digits/path] yields the scheme, the host and the port
    text, whatever the path. *)
Theorem url_target_round_trip :
  forall (secure : bool) (host path : string),
    plain_host host ->
    Re.findall_first (scheme_of secure ++ "://" ++ host ++ "/" ++ path)
    = Some (scheme_of secure, host, "")
    /\ forall ds, ds <> "" -> all_digits ds = true ->
         Re.findall_first
           (scheme_of secure ++ "://" ++ host ++ ":" ++ ds ++ "/" ++ path)
         = Some (scheme_of secure, host, String ":" ds).
Proof.
  intros secure host path Hh. split.
  - apply findall_first_here.
    apply (match_at_scheme secure _ (host, "")).
    now apply host_port_plain.
  - intros ds Hn Hd. apply findall_first_here.
    apply (match_at_scheme secure _ (host, String ":" ds)).
    apply host_port_plain; [exact Hh | now apply port_slash_explicit].
Qed.

Lemma url_target_round_trip_witness :
  Re.findall_first (scheme_of true ++ "://" ++ "example.com" ++ "/" ++ "a/b?c")
  = Some (scheme_of true, "example.com", "")
  /\ forall ds, ds <> "" -> all_digits ds = true ->
       Re.findall_first
         (scheme_of true ++ "://" ++ "example.com" ++ ":" ++ ds ++ "/" ++ "a/b?c")
       = Some (scheme_of true, "example.com", String ":" ds).
Proof.
  apply (url_target_round_trip true "example.com" "a/b?c").
  repeat split.
Defined.

Lemma digits_go_nonneg (s : string) :
  forall (acc : Z) (after_digit : bool) (n : Z),
    0 <= acc -> digits_go acc after_digit s = Some n -> 0 <= n.
Proof.
  induction s as [|c s IH]; intros acc b n Ha; cbn [digits_go].
  - destruct b; intros H; inversion H; now subst.
  - destruct (is_digit c) eqn:Hc.
    + apply IH. unfold digit_val. unfold is_digit in Hc.
      apply andb_true_iff in Hc. destruct Hc as [H1 _].
      apply Nat.leb_le in H1. lia.
    + destruct (Ascii.eqb c "_" && b); [now apply IH | discriminate].
Qed.

Lemma int_digits_nonneg (ds : string) (n : Z) :
  ds <> "" -> all_digits ds = true -> int ds = Some n -> 0 <= n.
Proof.
  intros Hn Hd. unfold int, strip.
  destruct ds as [|c d]; [contradiction|].
  pose proof Hd as Hd'. cbn [all_digits] in Hd'.
  apply andb_true_iff in Hd'. destruct Hd' as [Hc _].
  cbn [lstrip]. rewrite (is_digit_not_space c Hc), (rstrip_digits _ Hd).
  destruct (is_digit_not_sign c Hc) as [-> ->].
  apply digits_go_nonneg. lia.
Qed.



(** ** The retry loop: outcomes of the first attempt, exhausted attempts *)

Lemma range_pos (n : Z) :
  0 < n -> range n = 0 :: map Z.of_nat (seq 1 (Nat.pred (Z.to_nat n))).
Proof.
  intros H. unfold range. destruct (Z.to_nat n) eqn:E; [lia | reflexivity].
Qed.

Lemma filter_forced_nil (fl : list Z) (rs : list Response) :
  Forall (fun r => forced fl r = false) rs ->
  filter (fun r => existsb (Z.eqb (status_code r)) fl) rs = [].
Proof.
  induction 1 as [|r rs Hr _ IH]; [reflexivity|].
  cbn [filter]. unfold forced in Hr. now rewrite Hr.
Qed.

Lemma filter_forced_cons (fl : list Z) (rs : list Response) :
  Exists (fun r => forced fl r = true) rs ->
  exists r0 resps,
    filter (fun r => existsb (Z.eqb (status_code r)) fl) rs = r0 :: resps.
Proof.
  induction 1 as [r rs Hr | r rs _ IH]; cbn [filter].
  - unfold forced in Hr. rewrite Hr. eauto.
  - destruct (existsb (Z.eqb (status_code r)) fl); eauto.
Qed.

Section RetryOutcomes.

Variable method : string.
Variable buffer_size timeout : Z.
Variable backoff_factor : Z.
Variable status_forcelist : list Z.
Variable headers : list (string * string).

Let retrying := http_pipelining_with_retries method buffer_size timeout
                  backoff_factor status_forcelist headers.
Let single (urls : list string) :=
  http_pipelining urls method buffer_size timeout headers.

Lemma retrying_first_attempt (urls : list string) (max_retries : Z) (w : World) :
  0 < max_retries ->
  retrying urls max_retries w
  = match attempt method buffer_size timeout backoff_factor status_forcelist
                  headers 0 (mkRetry None [] backoff_factor urls) w with
    | (Ok (st, Break), w') =>
        (match total_ex st with
         | Some ex => Raise ex
         | None => Ok (total_responses st)
         end, w')
    | (Ok (st, Continue), w') =>
        (st' <- retry_loop method buffer_size timeout backoff_factor
                           status_forcelist headers
                           (map Z.of_nat (seq 1 (Nat.pred (Z.to_nat max_retries))))
                           st ;;
         match total_ex st' with
         | Some ex => raise ex
         | None => ret (total_responses st')
         end) w'
    | (Raise e, w') => (Raise e, w')
    end.
Proof.
  intros H. unfold retrying, http_pipelining_with_retries.
  rewrite (range_pos max_retries H). cbn [retry_loop]. unfold bind.
  destruct (attempt method buffer_size timeout backoff_factor status_forcelist
                    headers 0 (mkRetry None [] backoff_factor urls) w)
    as [[[st [|]]|e] w']; cbn [fst snd]; try reflexivity.
  unfold ret, raise. now destruct (total_ex st).
Qed.

End RetryOutcomes.

(** X14.  When the first attempt succeeds and no response has a status of
    the forcelist, the retrying entry point returns what the single-shot
    entry point returned and leaves the world as that call left it: one
    connection, no sleep. *)
Theorem retries_first_success :
  forall (method : string) (buffer_size timeout backoff_factor : Z)
         (status_forcelist : list Z) (headers : list (string * string))
         (urls : list string) (max_retries : Z) (w w1 : World)
         (rs : list Response),
    0 < max_retries ->
    http_pipelining urls method buffer_size timeout headers w = (Ok rs, w1) ->
    Forall (fun r => forced status_forcelist r = false) rs ->
    http_pipelining_with_retries method buffer_size timeout backoff_factor
      status_forcelist headers urls max_retries w = (Ok rs, w1).
Proof.
  intros method buffer_size timeout backoff_factor status_forcelist headers
         urls max_retries w w1 rs Hpos Hs Hf.
  rewrite retrying_first_attempt by exact Hpos.
  unfold attempt. cbn [urls_to_perform total_responses backoff total_ex].
  rewrite Hs, (filter_forced_nil _ _ Hf). reflexivity.
Qed.

Lemma retries_first_success_witness :
  http_pipelining_with_retries "HEAD" 1024 2 2 default_forcelist []
    ["http://x/a"; "http://x/b"] 2
    (world_of [answers [rendered [sample_ok; sample_missing]]])
  = (Ok (responses_of [sample_ok; sample_missing]
                      ["http://x/a"; "http://x/b"]),
     snd (http_pipelining ["http://x/a"; "http://x/b"] "HEAD" 1024 2 []
            (world_of [answers [rendered [sample_ok; sample_missing]]]))).
Proof.
  apply (retries_first_success "HEAD" 1024 2 2 default_forcelist []
           ["http://x/a"; "http://x/b"] 2
           (world_of [answers [rendered [sample_ok; sample_missing]]])).
  - lia.
  - reflexivity.
  - repeat constructor.
Defined.

(** X15.  When the first attempt leaves responses behind, that is, when it
    raises an error that carries responses or returns responses of which one
    has a status of the forcelist, the retrying entry point raises the
    NameError of [handled_urls] at once: no sleep, no further attempt. *)
Theorem retries_stop_at_ready_responses :
  forall (method : string) (buffer_size timeout backoff_factor : Z)
         (status_forcelist : list Z) (headers : list (string * string))
         (urls : list string) (max_retries : Z) (w w1 : World),
    0 < max_retries ->
    (exists e, http_pipelining urls method buffer_size timeout headers w
               = (Raise e, w1)
               /\ truthy (getattr_ready_responses e) = true)
    \/ (exists rs, http_pipelining urls method buffer_size timeout headers w
                   = (Ok rs, w1)
                   /\ Exists (fun r => forced status_forcelist r = true) rs) ->
    http_pipelining_with_retries method buffer_size timeout backoff_factor
      status_forcelist headers urls max_retries w
    = (Raise (NameError "handled_urls"), w1).
Proof.
  intros method buffer_size timeout backoff_factor status_forcelist headers
         urls max_retries w w1 Hpos H.
  rewrite retrying_first_attempt by exact Hpos.
  unfold attempt. cbn [urls_to_perform total_responses backoff total_ex].
  destruct H as [[e [Hs Ht]] | [rs [Hs Hf]]]; rewrite Hs.
  - assert (Hu : urls <> []) by (intros ->; discriminate).
    rewrite on_exception_cases by exact Hu. now rewrite Ht.
  - destruct (filter_forced_cons _ _ Hf) as [r0 [resps ->]].
    pose proof (http_pipelining_returns _ _ _ _ _ _ _ _ Hs) as Hm.
    cbn beta in Hm.
    assert (Hr : rs <> []) by (intros ->; inversion Hf).
    assert (Hu : urls <> []).
    { intros ->. destruct rs; [contradiction | discriminate]. }
    rewrite on_exception_cases by exact Hu.
    cbn [getattr_ready_responses truthy].
    destruct rs; [contradiction | reflexivity].
Qed.

Lemma retries_stop_at_ready_responses_witness :
  http_pipelining_with_retries "HEAD" 1024 2 2 default_forcelist []
    ["http://x/a"; "http://x/b"] 2
    (world_of [answers [status_only "503 Service Unavailable"
                          ++ status_only "200 OK"];
               answers [status_only "200 OK" ++ status_only "200 OK"]])
  = (Raise (NameError "handled_urls"),
     snd (http_pipelining ["http://x/a"; "http://x/b"] "HEAD" 1024 2 []
            (world_of [answers [status_only "503 Service Unavailable"
                                  ++ status_only "200 OK"];
                       answers [status_only "200 OK" ++ status_only "200 OK"]]))).
Proof.
  apply (retries_stop_at_ready_responses "HEAD" 1024 2 2 default_forcelist []
           ["http://x/a"; "http://x/b"] 2).
  - lia.
  - right.
    exists [mkResponse 503 "Service Unavailable" [] None "http://x/a";
            mkResponse 200 "OK" [] None "http://x/b"].
    split; [reflexivity|]. apply Exists_cons_hd. reflexivity.
Defined.

Section Exhausted.

Variable method : string.
Variable buffer_size timeout : Z.
Variable backoff_factor : Z.
Variable status_forcelist : list Z.
Variable headers : list (string * string).
Variable u : string.
Variable rest : list string.

Let loop := retry_loop method buffer_size timeout backoff_factor
                       status_forcelist headers.

Lemma attempt_unmatched (it : Z) (st : retry_state) (w : World) :
  Re.findall_first u = None ->
  urls_to_perform st = u :: rest ->
  attempt method buffer_size timeout backoff_factor status_forcelist headers
          it st w
  = (Ok (mkRetry (Some IndexError) (total_responses st)
                 (backoff st + it * backoff_factor) (u :: rest), Continue),
     slept (backoff st) w).
Proof.
  intros Hm Hu. unfold attempt.
  cbn [urls_to_perform total_responses backoff total_ex]. rewrite Hu.
  unfold http_pipelining. rewrite Hm. unfold raise.
  rewrite on_exception_cases by (cbn; discriminate). reflexivity.
Qed.

Lemma loop_unmatched (its : list Z) :
  forall (st : retry_state) (w : World),
    Re.findall_first u = None ->
    urls_to_perform st = u :: rest ->
    exists st',
      loop its st w
      = (Ok st',
         mkWorld (future w) (sock w)
                 (trace w ++ map EvSleep (delays backoff_factor its (backoff st)))%list)
      /\ total_ex st' = match its with
                        | [] => total_ex st
                        | _ => Some IndexError
                        end.
Proof.
  induction its as [|it its IH]; intros st w Hm Hu.
  - exists st. cbn. rewrite app_nil_r. destruct w. now split.
  - unfold loop. cbn [retry_loop]. unfold bind.
    rewrite (attempt_unmatched it st w Hm Hu). cbn [fst snd].
    destruct (IH (mkRetry (Some IndexError) (total_responses st)
                          (backoff st + it * backoff_factor) (u :: rest))
                 (slept (backoff st) w) Hm eq_refl) as [st' [Hl Hx]].
    exists st'. unfold loop in Hl. rewrite Hl. split.
    + unfold slept. cbn [future sock trace backoff delays map].
      now rewrite <- app_assoc.
    + cbn [total_ex] in Hx. now destruct its.
Qed.

Variable protocol host port : string.
Variable msg : string.

Let eff := effective_port protocol port.

Lemma attempt_refused (it : Z) (st : retry_state) (w : World)
      (s : sock_script) (ss : list sock_script) :
  Re.findall_first u = Some (protocol, host, port) ->
  urls_to_perform st = u :: rest ->
  future w = s :: ss -> on_connect s = Some msg ->
  attempt method buffer_size timeout backoff_factor status_forcelist headers
          it st w
  = (Ok (mkRetry (Some (OSError msg)) (total_responses st)
                 (backoff st + it * backoff_factor) (u :: rest), Continue),
     mkWorld ss s
       (trace w ++ refused_events host eff ++ [EvSleep (backoff st)])%list).
Proof.
  intros Hm Hu Hf Hc. unfold attempt.
  cbn [urls_to_perform total_responses backoff total_ex]. rewrite Hu.
  rewrite (http_pipelining_target u rest method buffer_size timeout headers w
             protocol host port Hm).
  rewrite (perform_refused (u :: rest) host
             (effective_port protocol port) method buffer_size
             false false headers w s ss msg Hf Hc).
  rewrite on_exception_cases by (cbn; discriminate).
  cbn [getattr_ready_responses truthy total_responses backoff urls_to_perform
       orb]. unfold slept, refused_events. cbn [future sock trace].
  now rewrite <- !app_assoc.
Qed.

Lemma loop_refused (its : list Z) :
  forall (scripts ss : list sock_script) (st : retry_state) (w : World),
    Re.findall_first u = Some (protocol, host, port) ->
    urls_to_perform st = u :: rest ->
    List.length scripts = List.length its ->
    Forall (fun s => on_connect s = Some msg) scripts ->
    future w = (scripts ++ ss)%list ->
    exists st' w',
      loop its st w = (Ok st', w')
      /\ future w' = ss
      /\ trace w'
         = (trace w
              ++ flat_map (fun b => refused_events host eff ++ [EvSleep b])
                          (delays backoff_factor its (backoff st)))%list
      /\ total_ex st' = match its with
                        | [] => total_ex st
                        | _ => Some (OSError msg)
                        end.
Proof.
  induction its as [|it its IH]; intros scripts ss st w Hm Hu Hl Hall Hf.
  - destruct scripts; [|discriminate]. exists st, w. cbn.
    rewrite app_nil_r. repeat split; auto.
  - destruct scripts as [|s scripts]; [discriminate|].
    inversion Hall as [|? ? Hc Hrest]; subst.
    unfold loop. cbn [retry_loop]. unfold bind.
    rewrite (attempt_refused it st w s (scripts ++ ss) Hm Hu Hf Hc).
    cbn [fst snd].
    destruct (IH scripts ss
                (mkRetry (Some (OSError msg)) (total_responses st)
                         (backoff st + it * backoff_factor) (u :: rest))
                (mkWorld (scripts ++ ss) s
                   (trace w ++ refused_events host eff
                      ++ [EvSleep (backoff st)])%list)
                Hm eq_refl ltac:(cbn in Hl; lia) Hrest eq_refl)
      as [st' [w' [Hloop [Hfut [Htr Hx]]]]].
    exists st', w'. unfold loop in Hloop. rewrite Hloop.
    repeat split; auto.
    + rewrite Htr. cbn [trace backoff delays flat_map].
      now rewrite <- !app_assoc.
    + cbn [total_ex] in Hx. now destruct its.
Qed.

End Exhausted.

Lemma range_length (n : Z) : List.length (range n) = Z.to_nat n.
Proof. unfold range. now rewrite length_map, length_seq. Qed.



Lemma retrying_unmatched :
  forall (method : string) (buffer_size timeout backoff_factor : Z)
         (status_forcelist : list Z) (headers : list (string * string))
         (u : string) (rest : list string) (max_retries : Z) (w : World),
    Re.findall_first u = None ->
    0 < max_retries ->
    http_pipelining_with_retries method buffer_size timeout backoff_factor
      status_forcelist headers (u :: rest) max_retries w
    = (Raise IndexError,
       mkWorld (future w) (sock w)
         (trace w ++ map EvSleep
                         (delays backoff_factor (range max_retries)
                                 backoff_factor))%list).
Proof.
  intros method buffer_size timeout backoff_factor status_forcelist headers
         u rest max_retries w Hm Hpos.
  destruct (loop_unmatched method buffer_size timeout backoff_factor
              status_forcelist headers u rest (range max_retries)
              (mkRetry None [] backoff_factor (u :: rest)) w Hm eq_refl)
    as [st' [Hloop Hx]].
  unfold http_pipelining_with_retries, bind. rewrite Hloop.
  rewrite (range_pos max_retries Hpos) in Hx. now rewrite Hx.
Qed.



Lemma delays_nth (backoff_factor : Z) (n : nat) :
  forall (k i : nat) (b : Z),
    (i < n)%nat ->
    2 * nth i (delays backoff_factor (map Z.of_nat (seq k n)) b) 0
    = 2 * b + backoff_factor
              * (2 * Z.of_nat i * Z.of_nat k + Z.of_nat i * (Z.of_nat i - 1)).
Proof.
  induction n as [|n IH]; intros k i b Hi; [lia|].
  cbn [seq map delays]. destruct i as [|i].
  - cbn [nth]. lia.
  - cbn [nth]. rewrite IH by lia. rewrite !Nat2Z.inj_succ. ring.
Qed.

Lemma delays_length (backoff_factor : Z) (its : list Z) :
  forall b, List.length (delays backoff_factor its b) = List.length its.
Proof.
  induction its as [|it its IH]; intros b; cbn [delays List.length];
    [reflexivity | now rewrite IH].
Qed.



(** ** Errors of [sendall] and [shutdown] *)




